(** * eo-learn feature extractor: the formula language of
      [features/eolearn/features/feature_extractor.py]

    A shallow embedding of the [Lexer] and of [FeatureExtendedExtractor]
    (the recursive-descent parser that compiles a spectral-index formula
    to closures), followed by the properties of the specification that
    are checked against it.

    Modelling conventions.
    - A Python [str] is a [string]; [Lexer(expr)] is the list of its
      characters.  Characters are the code points U+0000..U+00FF
      ([ascii]); [isspace], [isdigit], [lower] and [int] are the Python
      ones restricted to that range.
    - A Python call returns a value or raises: [result].  The parser
      mutates the lexer, so a parsing method is a function from the
      lexer to a [result] carrying the returned value and the lexer
      left behind.
    - [parse_T] is recursive through [parse_I], [parse_S], [parse_R],
      [parse_D]; the recursion depth is the [fuel] argument, and
      [OutOfFuel] is shown never to happen from [__init__].
    - Band values are duck-typed in the source ([-], [+], [/] of
      whatever the vector holds): the class [Numeric], with Python's
      [float] (IEEE binary64, [/] raising on a zero divisor) as the
      instance used for concrete runs. *)

From Stdlib Require Import List Ascii String ZArith Bool Lia.
From Stdlib Require Import Floats.
Import ListNotations.

Set Implicit Arguments.

(* Decimal band values such as 0.6 are read as the nearest binary64,
   as Python reads them. *)
Set Warnings "-inexact-float".

(** ** Python values and exceptions *)

Module Py.

Inductive exn : Type :=
| SyntaxError (expected actual : ascii)  (* "Expected '{}', got '{}'" *)
| IndexError                             (* list index / pop on an empty list *)
| KeyError (ch : ascii)                  (* dict lookup in parse_T *)
| ValueError (ch : ascii)                (* int() of a non-decimal character *)
| ZeroDivisionError.

Inductive result (A : Type) : Type :=
| Ok (a : A)
| Raise (e : exn)
| OutOfFuel.

Arguments Raise {A} e.
Arguments OutOfFuel {A}.

Definition bind {A B} (r : result A) (k : A -> result B) : result B :=
  match r with
  | Ok a => k a
  | Raise e => Raise e
  | OutOfFuel => OutOfFuel
  end.

Definition code (c : ascii) : N := N_of_ascii c.

Definition between (lo hi n : N) : bool := ((lo <=? n) && (n <=? hi))%N.

(** [str.isspace] on U+0000..U+00FF: TAB..CR, FS..US, SPACE, NEL, NBSP. *)
Definition isspace (c : ascii) : bool :=
  let n := code c in
  between 9 13 n || between 28 32 n || (n =? 133)%N || (n =? 160)%N.

(** [str.isdigit] on U+0000..U+00FF: '0'..'9' and the superscripts
    U+00B2, U+00B3, U+00B9. *)
Definition isdigit (c : ascii) : bool :=
  let n := code c in
  between 48 57 n || (n =? 178)%N || (n =? 179)%N || (n =? 185)%N.

(** [str.lower] on U+0000..U+00FF: 'A'..'Z' and U+00C0..U+00DE but the
    multiplication sign U+00D7. *)
Definition lower (c : ascii) : ascii :=
  let n := code c in
  if between 65 90 n || (between 192 222 n && negb (n =? 215)%N)
  then ascii_of_N (n + 32) else c.

(** [int(c)] of a one-character string: the decimal digits only. *)
Definition int (c : ascii) : result Z :=
  let n := code c in
  if between 48 57 n then Ok (Z.of_N n - 48)%Z else Raise (ValueError c).

(** [x[k]] on a sequence: negative offsets count from the end. *)
Definition getitem {A} (x : list A) (k : Z) : result A :=
  let n := Z.of_nat (List.length x) in
  let i := (if k <? 0 then k + n else k)%Z in
  if ((0 <=? i) && (i <? n))%Z
  then match nth_error x (Z.to_nat i) with
       | Some v => Ok v
       | None => Raise IndexError
       end
  else Raise IndexError.

(** The arithmetic the compiled closures apply to band values. *)
Class Numeric (T : Type) : Type := {
  sub : T -> T -> T;
  add : T -> T -> T;
  truediv : T -> T -> result T
}.

(** Python's [float]: binary64, and [/] raises on a zero divisor. *)
#[export] Instance float_Numeric : Numeric float := {
  sub := PrimFloat.sub;
  add := PrimFloat.add;
  truediv := fun a b =>
    if PrimFloat.eqb b 0%float then Raise ZeroDivisionError
    else Ok (PrimFloat.div a b)
}.

(** numpy's [float64] scalars: binary64 too, but [/] by zero gives an
    infinity or a NaN (with a warning) and does not raise. *)
Definition float64_Numeric : Numeric float := {|
  sub := PrimFloat.sub;
  add := PrimFloat.add;
  truediv := fun a b => Ok (PrimFloat.div a b)
|}.

End Py.

Import Py.

Notation "x <- c1 ;; c2" := (Py.bind c1 (fun x => c2))
  (at level 61, c1 at next level, right associativity).
Notation "' pat <- c1 ;; c2" :=
  (Py.bind c1 (fun x => match x with pat => c2 end))
  (at level 61, pat pattern, c1 at next level, right associativity).

(** ** class Lexer(list) *)

Module Lexer.

Definition t : Type := list ascii.

(** A method that may mutate the lexer. *)
Definition method (A : Type) : Type := t -> result (A * t).

Definition popleft : method ascii := fun self =>
  match self with
  | [] => Raise IndexError
  | c :: rest => Ok (c, rest)
  end.

(** [while self[0].isspace(): self.popleft()] *)
Fixpoint skip_whitespace (self : t) : result (unit * t) :=
  match self with
  | [] => Raise IndexError
  | c :: rest => if isspace c then skip_whitespace rest else Ok (tt, self)
  end.

Definition next : method ascii := fun self =>
  '(_, self) <- skip_whitespace self ;;
  popleft self.

Definition peek : method ascii := fun self =>
  '(_, self) <- skip_whitespace self ;;
  match self with
  | [] => Raise IndexError
  | c :: _ => Ok (c, self)
  end.

End Lexer.

(** [Lexer(expr)]: the list of the characters of [expr]. *)
Definition Lexer_of (expr : string) : Lexer.t := list_ascii_of_string expr.

(** ** class FeatureExtendedExtractor *)

Module FeatureExtendedExtractor.

Section Extractor.

Context {T : Type} `{Numeric T}.

(** What a production compiles to: a closure from the band-value
    vector to a number. *)
Definition node : Type := list T -> result T.

Definition ensure_follows (expected_ch : ascii) : Lexer.method unit :=
  fun lexer =>
    '(ch, lexer) <- Lexer.next lexer ;;
    if negb (Ascii.eqb ch expected_ch)
    then Raise (SyntaxError expected_ch ch)
    else Ok (tt, lexer).

(** The closures the productions return.  [_index_fun] is the one the
    source names; the others are its lambdas. *)
Definition _index_fun (val_fst val_snd : node) : node := fun x =>
  v1 <- val_fst x ;;
  v2 <- val_snd x ;;
  truediv (sub v1 v2) (add v1 v2).

(** [lambda x: val_fst(x) - val_snd(x)] *)
Definition _diff_fun (val_fst val_snd : node) : node := fun x =>
  v1 <- val_fst x ;;
  v2 <- val_snd x ;;
  Ok (sub v1 v2).

(** [lambda x: val_fst(x) / val_snd(x)] *)
Definition _ratio_fun (val_fst val_snd : node) : node := fun x =>
  v1 <- val_fst x ;;
  v2 <- val_snd x ;;
  truediv v1 v2.

(** [lambda x: (val_fst(x) + val_snd(x)) / val_thd(x)] *)
Definition _sum_over_fun (val_fst val_snd val_thd : node) : node := fun x =>
  v1 <- val_fst x ;;
  v2 <- val_snd x ;;
  v3 <- val_thd x ;;
  truediv (add v1 v2) v3.

(** [lambda x: x[10 * int(num) + int(nxt)]]: both [int] calls run
    when the closure is invoked. *)
Definition _band2_fun (num nxt : ascii) : node := fun x =>
  a <- int num ;;
  b <- int nxt ;;
  getitem x (10 * a + b)%Z.

(** [lambda x: x[8]] *)
Definition _band8a_fun : node := fun x => getitem x 8%Z.

(** [lambda x: x[nr if nr < 8 else nr + 1]] *)
Definition _band1_fun (nr : Z) : node := fun x =>
  getitem x (if (nr <? 8)%Z then nr else nr + 1)%Z.

Definition parse_B : Lexer.method node := fun lexer =>
  '(num, lexer) <- Lexer.next lexer ;;
  '(nxt, lexer) <- Lexer.peek lexer ;;
  if isdigit nxt then
    '(_, lexer) <- Lexer.popleft lexer ;;
    Ok (_band2_fun num nxt, lexer)
  else if Ascii.eqb (lower nxt) "a" then
    '(_, lexer) <- Lexer.popleft lexer ;;
    Ok (_band8a_fun, lexer)
  else
    n <- int num ;;
    let nr := (n - 1)%Z in
    Ok (_band1_fun nr, lexer).

(** The operator productions, over [self.parse_T]. *)
Section Productions.

Variable parse_T : Lexer.method node.

Definition parse_I : Lexer.method node := fun lexer =>
  '(_, lexer) <- ensure_follows "(" lexer ;;
  '(val_fst, lexer) <- parse_T lexer ;;
  '(_, lexer) <- ensure_follows "," lexer ;;
  '(val_snd, lexer) <- parse_T lexer ;;
  '(_, lexer) <- ensure_follows ")" lexer ;;
  Ok (_index_fun val_fst val_snd, lexer).

Definition parse_S : Lexer.method node := fun lexer =>
  '(_, lexer) <- ensure_follows "(" lexer ;;
  '(val_fst, lexer) <- parse_T lexer ;;
  '(_, lexer) <- ensure_follows "," lexer ;;
  '(val_snd, lexer) <- parse_T lexer ;;
  '(_, lexer) <- ensure_follows ")" lexer ;;
  Ok (_diff_fun val_fst val_snd, lexer).

Definition parse_R : Lexer.method node := fun lexer =>
  '(_, lexer) <- ensure_follows "(" lexer ;;
  '(val_fst, lexer) <- parse_T lexer ;;
  '(_, lexer) <- ensure_follows "," lexer ;;
  '(val_snd, lexer) <- parse_T lexer ;;
  '(_, lexer) <- ensure_follows ")" lexer ;;
  Ok (_ratio_fun val_fst val_snd, lexer).

Definition parse_D : Lexer.method node := fun lexer =>
  '(_, lexer) <- ensure_follows "(" lexer ;;
  '(val_fst, lexer) <- parse_T lexer ;;
  '(_, lexer) <- ensure_follows "," lexer ;;
  '(val_snd, lexer) <- parse_T lexer ;;
  '(_, lexer) <- ensure_follows "," lexer ;;
  '(val_thd, lexer) <- parse_T lexer ;;
  '(_, lexer) <- ensure_follows ")" lexer ;;
  Ok (_sum_over_fun val_fst val_snd val_thd, lexer).

(** The dispatch [{'I': ..., 'S': ..., 'R': ..., 'D': ..., 'B': ...}[ch]]. *)
Definition dispatch (ch : ascii) : Lexer.method node :=
  if Ascii.eqb ch "I" then parse_I
  else if Ascii.eqb ch "S" then parse_S
  else if Ascii.eqb ch "R" then parse_R
  else if Ascii.eqb ch "D" then parse_D
  else if Ascii.eqb ch "B" then parse_B
  else fun _ => Raise (KeyError ch).

(** [while lexer: ensure_follows(lexer, ';'); vals.append(parse_T(lexer))] *)
Fixpoint parse_E_loop (fuel : nat) (vals : list node) (lexer : Lexer.t)
  : result (list node * Lexer.t) :=
  match lexer with
  | [] => Ok (vals, lexer)
  | _ :: _ =>
      match fuel with
      | O => OutOfFuel
      | S fuel =>
          '(_, lexer) <- ensure_follows ";" lexer ;;
          '(v, lexer) <- parse_T lexer ;;
          parse_E_loop fuel (vals ++ [v]) lexer
      end
  end.

End Productions.

Fixpoint parse_T (fuel : nat) : Lexer.method node := fun lexer =>
  match fuel with
  | O => OutOfFuel
  | S fuel =>
      '(ch, lexer) <- Lexer.next lexer ;;
      dispatch (parse_T fuel) ch lexer
  end.

Definition parse_E (fuel : nat) : Lexer.method (list node) := fun lexer =>
  '(v, lexer) <- parse_T fuel lexer ;;
  parse_E_loop (parse_T fuel) fuel [v] lexer.

(** [self.parsed = self.parse_E(Lexer(expr))]; every call of
    [parse_T] pops a character first, so the length of the input
    bounds both the depth and the number of terms. *)
Definition __init__ (expr : string) : result (list node) :=
  let lexer := Lexer_of expr in
  '(parsed, _) <- parse_E (S (List.length lexer)) lexer ;;
  Ok parsed.

(** [[f(x) for f in self.parsed]] *)
Fixpoint __call__ (parsed : list node) (x : list T) : result (list T) :=
  match parsed with
  | [] => Ok []
  | f :: parsed =>
      v <- f x ;;
      vs <- __call__ parsed x ;;
      Ok (v :: vs)
  end.

End Extractor.

End FeatureExtendedExtractor.

Import FeatureExtendedExtractor.

(** ** Predicates of the statements *)

(** Total-correctness postcondition of a run: a returned value and the
    lexer left behind satisfy [Q], a raised exception satisfies [E], and
    the run does not exhaust its fuel. *)
Definition sat {A} (Q : A -> Lexer.t -> Prop) (E : exn -> Prop)
  (r : result (A * Lexer.t)) : Prop :=
  match r with
  | Ok (a, l) => Q a l
  | Raise e => E e
  | OutOfFuel => False
  end.

(** [r2] is [r1] run with at least as much fuel. *)
Definition refines {A} (r1 r2 : result A) : Prop :=
  r1 = OutOfFuel \/ r1 = r2.

(** The exceptions that construction lets escape: the [SyntaxError] of
    [ensure_follows], with the character it expected and the one it
    got; the [IndexError] of an exhausted lexer; the [KeyError] of the
    dispatch in [parse_T]; the [ValueError] of [int(num)] in
    [parse_B]. *)
Definition construction_error (e : exn) : Prop :=
  match e with
  | SyntaxError expected actual =>
      In expected ["("; ","; ")"; ";"]%char /\ actual <> expected
  | IndexError => True
  | KeyError ch => ~ In ch ["I"; "S"; "R"; "D"; "B"]%char
  | ValueError ch => int ch = Raise (ValueError ch)
  | ZeroDivisionError => False
  end.

Definition is_SyntaxError (e : exn) : bool :=
  match e with SyntaxError _ _ => true | _ => false end.

(** The contract the specification gives for construction: a compiled
    expression set, or a [SyntaxError]. *)
Definition compiled_or_SyntaxError {A} (r : result A) : Prop :=
  match r with
  | Ok _ => True
  | Raise e => is_SyntaxError e = true
  | OutOfFuel => False
  end.

(** The decimal digits '0'..'9' ([str.isdecimal] on U+0000..U+00FF) and
    their values. *)
Definition isdecimal (c : ascii) : bool := between 48 57 (code c).

Definition digit_value (c : ascii) : Z := (Z.of_N (code c) - 48)%Z.

(** The band index mapping as the specification tabulates it, over its
    declared domain: labels "1".."8" give 0..7, "8A" (second character
    case-insensitive) gives 8, "9" gives 9, and "10", "11", "12" give
    10, 11, 12. *)
Definition band_table : list (string * Z) :=
  [ ("1", 0); ("2", 1); ("3", 2); ("4", 3); ("5", 4); ("6", 5); ("7", 6);
    ("8", 7); ("8A", 8); ("8a", 8); ("9", 9);
    ("10", 10); ("11", 11); ("12", 12) ]%Z%string.

Definition band_index (label : string) : option Z :=
  option_map snd
    (find (fun entry => String.eqb (fst entry) label) band_table).

(** Where a one-character label ends: the lookahead of [parse_B] finds
    a character that is neither a digit nor 'a'/'A'.  A two-character
    label needs nothing after it. *)
Definition delimited (label : string) (rest : Lexer.t) : Prop :=
  String.length label = 1 ->
  exists c rest',
    Lexer.skip_whitespace rest = Ok (tt, c :: rest') /\
    isdigit c = false /\ Ascii.eqb (lower c) "a" = false.

(** The lexer [parse_B] leaves behind after the label: a two-character
    label is consumed and nothing more; after a one-character label the
    whitespace before the lookahead is gone too. *)
Definition after_label (label : string) (rest rest' : Lexer.t) : Prop :=
  if (String.length label =? 1)%nat
  then Lexer.skip_whitespace rest = Ok (tt, rest')
  else rest' = rest.

(** A run that returns on a lexer returns the same value when more
    input [s] follows, and leaves [s] behind untouched. *)
Definition frames {A} (s : Lexer.t) (r1 r2 : result (A * Lexer.t)) : Prop :=
  forall a l, r1 = Ok (a, l) -> r2 = Ok (a, l ++ s).

(** [ws_insert l l']: [l'] is [l] with whitespace characters inserted
    before some of its characters (none after the last one). *)
Inductive ws_insert : Lexer.t -> Lexer.t -> Prop :=
| ws_nil : ws_insert [] []
| ws_keep c l l' : ws_insert l l' -> ws_insert (c :: l) (c :: l')
| ws_space w c l l' :
    isspace w = true -> ws_insert (c :: l) l' -> ws_insert (c :: l) (w :: l').

(** Two lexers that start with the same character, with whitespace
    inserted after it in the second. *)
Definition aligned (l l' : Lexer.t) : Prop :=
  exists c r r', l = c :: r /\ l' = c :: r' /\ ws_insert r r'.

(** Two runs end alike: the same value with lexers related by [R], or
    the same exception. *)
Definition related {A} (R : Lexer.t -> Lexer.t -> Prop)
  (r1 r2 : result (A * Lexer.t)) : Prop :=
  match r1, r2 with
  | Ok (a1, l1), Ok (a2, l2) => a1 = a2 /\ R l1 l2
  | Raise e1, Raise e2 => e1 = e2
  | OutOfFuel, OutOfFuel => True
  | _, _ => False
  end.

(** A band-value vector of 13 readings whose element at index 7 is 0.6
    and whose element at index 3 is 0.2: the input of the NDVI example.
    The other readings are 1. *)
Definition ndvi_vector : list float :=
  [1; 1; 1; 0.2; 1; 1; 1; 0.6; 1; 1; 1; 1; 1]%float.

(** The lexers on which [parse_B] raises: the input ends before the
    label's first character or before the lookahead, or the lookahead
    is neither a digit nor 'a'/'A' and the first character is not a
    decimal digit. *)
Definition band_label_rejected (lexer : Lexer.t) : Prop :=
  match Lexer.skip_whitespace lexer with
  | Ok (_, num :: l1) =>
      match Lexer.skip_whitespace l1 with
      | Ok (_, nxt :: _) =>
          isdigit nxt = false /\ Ascii.eqb (lower nxt) "a" = false /\
          isdecimal num = false
      | _ => True
      end
  | _ => True
  end.

(** The grammar around the children of an operator node, read off the
    lexer: '(' Term ',' Term ')' and '(' Term ',' Term ',' Term ')',
    with the evaluators the recursive calls return for the terms. *)
Definition two_arguments {T} (parse_T : Lexer.method (@node T))
    (lexer : Lexer.t) (val_fst val_snd : @node T) (rest : Lexer.t) : Prop :=
  exists l1 l2 l3 l4,
    ensure_follows "(" lexer = Ok (tt, l1) /\
    parse_T l1 = Ok (val_fst, l2) /\
    ensure_follows "," l2 = Ok (tt, l3) /\
    parse_T l3 = Ok (val_snd, l4) /\
    ensure_follows ")" l4 = Ok (tt, rest).

Definition three_arguments {T} (parse_T : Lexer.method (@node T))
    (lexer : Lexer.t) (val_fst val_snd val_thd : @node T) (rest : Lexer.t)
  : Prop :=
  exists l1 l2 l3 l4 l5 l6,
    ensure_follows "(" lexer = Ok (tt, l1) /\
    parse_T l1 = Ok (val_fst, l2) /\
    ensure_follows "," l2 = Ok (tt, l3) /\
    parse_T l3 = Ok (val_snd, l4) /\
    ensure_follows "," l4 = Ok (tt, l5) /\
    parse_T l5 = Ok (val_thd, l6) /\
    ensure_follows ")" l6 = Ok (tt, rest).

(** The terms of an expression in their order of appearance,
    Expr -> Term (';' Term)*, with the evaluator each compiles to:
    [more_terms] is the part after a term, up to the end of the input. *)
Inductive more_terms {T} (parse_T : Lexer.method (@node T))
  : Lexer.t -> list (@node T) -> Prop :=
| more_terms_end : more_terms parse_T [] []
| more_terms_next lexer l1 l2 v vs :
    ensure_follows ";" lexer = Ok (tt, l1) ->
    parse_T l1 = Ok (v, l2) ->
    more_terms parse_T l2 vs ->
    more_terms parse_T lexer (v :: vs).

Definition expression_terms {T} (parse_T : Lexer.method (@node T))
    (lexer : Lexer.t) (terms : list (@node T)) : Prop :=
  exists v l1 vs,
    parse_T lexer = Ok (v, l1) /\ more_terms parse_T l1 vs /\ terms = v :: vs.

(** What a parsing method does on a lexer [l]: it consumes at least
    one character, or raises one of the construction errors. *)
Definition consumes {A} (l : Lexer.t) : result (A * Lexer.t) -> Prop :=
  sat (fun _ r => List.length r < List.length l) construction_error.

(** ** The grammar of the module's docstring

    E -> T | T;E
    T -> I(T,T) | S(T,T) | D(T,T,T) | R(T,T) | B
    B -> B01 | B02 | B03 | ... | B12

    [term] is a derivation of T, [in_grammar] keeps the band numbers of
    B, [unparse] writes the derived string and [unparse_E] the string of
    an E with its terms separated by ';'. *)
Inductive term : Type :=
| Band (n : nat)
| NormDiff (a b : term)
| Diff (a b : term)
| SumOver (a b c : term)
| Ratio (a b : term).

Fixpoint in_grammar (t : term) : Prop :=
  match t with
  | Band n => 1 <= n <= 12
  | NormDiff a b | Diff a b | Ratio a b => in_grammar a /\ in_grammar b
  | SumOver a b c => in_grammar a /\ in_grammar b /\ in_grammar c
  end.

Definition digit_char (d : nat) : ascii := ascii_of_nat (48 + d).

Fixpoint unparse (t : term) : string :=
  match t with
  | Band n =>
      String "B" (String (digit_char (n / 10))
                    (String (digit_char (n mod 10)) EmptyString))
  | NormDiff a b => "I(" ++ unparse a ++ "," ++ unparse b ++ ")"
  | Diff a b => "S(" ++ unparse a ++ "," ++ unparse b ++ ")"
  | SumOver a b c =>
      "D(" ++ unparse a ++ "," ++ unparse b ++ "," ++ unparse c ++ ")"
  | Ratio a b => "R(" ++ unparse a ++ "," ++ unparse b ++ ")"
  end%string.

Fixpoint unparse_more (ts : list term) : string :=
  match ts with
  | [] => EmptyString
  | t :: ts => (";" ++ unparse t ++ unparse_more ts)%string
  end.

Definition unparse_E (t : term) (ts : list term) : string :=
  (unparse t ++ unparse_more ts)%string.

(** The closure the productions build for a term: the two-digit
    closure of [parse_B] for a band, and the closure of the operator's
    production over the closures of its arguments. *)
Fixpoint compile {T} `{Numeric T} (t : term) : @node T :=
  match t with
  | Band n => _band2_fun (digit_char (n / 10)) (digit_char (n mod 10))
  | NormDiff a b => _index_fun (compile a) (compile b)
  | Diff a b => _diff_fun (compile a) (compile b)
  | SumOver a b c => _sum_over_fun (compile a) (compile b) (compile c)
  | Ratio a b => _ratio_fun (compile a) (compile b)
  end.

(** The nesting depth of a term: the recursion depth [parse_T] needs. *)
Fixpoint depth (t : term) : nat :=
  match t with
  | Band _ => 1
  | NormDiff a b | Diff a b | Ratio a b => S (Nat.max (depth a) (depth b))
  | SumOver a b c => S (Nat.max (depth a) (Nat.max (depth b) (depth c)))
  end.

(** The exceptions a compiled evaluator can raise when it is invoked:
    [IndexError] from [x[...]], [ValueError] from the [int] calls of a
    two-character band label, [ZeroDivisionError] from [/]. *)
Definition invocation_error (e : exn) : Prop :=
  match e with
  | IndexError | ValueError _ | ZeroDivisionError => True
  | SyntaxError _ _ | KeyError _ => False
  end.

(** What invoking an evaluator on a vector gives: a value or one of
    the invocation errors. *)
Definition invocation_outcome {T} (r : result T) : Prop :=
  match r with
  | Ok _ => True
  | Raise e => invocation_error e
  | OutOfFuel => False
  end.

(** An arithmetic whose [/] raises nothing but [ZeroDivisionError]. *)
Definition division_raises_only_ZeroDivisionError (T : Type) `{Numeric T}
  : Prop :=
  forall a b : T,
    match truediv a b with
    | Ok _ => True
    | Raise e => e = ZeroDivisionError
    | OutOfFuel => False
    end.

(** An arithmetic whose [/] always returns a value. *)
Definition division_is_total (T : Type) `{Numeric T} : Prop :=
  forall a b : T, exists q, truediv a b = Ok q.

Arguments division_raises_only_ZeroDivisionError T {_}.
Arguments division_is_total T {_}.

(** [consumed l r]: the lexer [r] is what is left of [l] after a
    non-empty run of its first characters has been consumed. *)
Definition consumed (l r : Lexer.t) : Prop :=
  exists p, p <> [] /\ l = p ++ r.

(** * Properties *)

(** ** Rules for [sat] and [refines] *)

Section Rules.

Context {A B : Type}.

Lemma sat_bind (Q1 : A -> Lexer.t -> Prop) (Q2 : B -> Lexer.t -> Prop)
    (E : exn -> Prop) r (k : A * Lexer.t -> result (B * Lexer.t)) :
  sat Q1 E r ->
  (forall a l, Q1 a l -> sat Q2 E (k (a, l))) ->
  sat Q2 E (Py.bind r k).
Proof.
  destruct r as [[a l] | e | ]; simpl; auto; contradiction.
Qed.

Lemma sat_weaken (Q Q' : A -> Lexer.t -> Prop) (E E' : exn -> Prop) r :
  sat Q E r ->
  (forall a l, Q a l -> Q' a l) ->
  (forall e, E e -> E' e) ->
  sat Q' E' r.
Proof.
  destruct r as [[a l] | e | ]; simpl; auto.
Qed.

Lemma refines_bind (r1 r2 : result A) (k1 k2 : A -> result B) :
  refines r1 r2 ->
  (forall a, refines (k1 a) (k2 a)) ->
  refines (Py.bind r1 k1) (Py.bind r2 k2).
Proof.
  intros [-> | ->] Hk; [now left | ].
  destruct r2 as [a | e | ]; simpl; [apply Hk | now right ..].
Qed.

Lemma refines_defined (r1 r2 : result A) :
  refines r1 r2 -> r1 <> OutOfFuel -> r2 = r1.
Proof. intros [-> | ->]; congruence. Qed.

End Rules.

(** ** The lexer *)

Lemma skip_whitespace_sat (l : Lexer.t) :
  sat (fun _ r => exists c rest,
           r = c :: rest /\ isspace c = false /\ List.length r <= List.length l)
      (eq IndexError)
      (Lexer.skip_whitespace l).
Proof.
  induction l as [ | c l IH]; simpl; [reflexivity | ].
  destruct (isspace c) eqn:Hc.
  - eapply sat_weaken; [exact IH | | auto].
    intros _ r (c' & rest & -> & Hc' & Hlen).
    exists c', rest. repeat split; auto.
  - simpl. exists c, l. auto.
Qed.

Lemma next_sat (l : Lexer.t) :
  sat (fun c r => isspace c = false /\ List.length r < List.length l)
      (eq IndexError)
      (Lexer.next l).
Proof.
  unfold Lexer.next.
  eapply sat_bind; [apply skip_whitespace_sat | ].
  intros _ r (c & rest & -> & Hc & Hlen); simpl in *. split; [assumption | lia].
Qed.

Lemma peek_sat (l : Lexer.t) :
  sat (fun c r => isspace c = false /\ (exists rest, r = c :: rest)
                  /\ List.length r <= List.length l)
      (eq IndexError)
      (Lexer.peek l).
Proof.
  unfold Lexer.peek.
  eapply sat_bind; [apply skip_whitespace_sat | ].
  intros _ r (c & rest & -> & Hc & Hlen); simpl in *. eauto.
Qed.

Lemma ensure_follows_sat (ch : ascii) (l : Lexer.t) :
  sat (fun _ r => List.length r < List.length l)
      (fun e => e = IndexError \/
                exists actual, e = SyntaxError ch actual /\ actual <> ch)
      (ensure_follows ch l).
Proof.
  unfold ensure_follows.
  eapply sat_bind;
    [eapply sat_weaken; [apply next_sat | intros a r Hq; exact Hq | ] | ].
  - intros e <-. now left.
  - intros c r [_ Hlen]. cbn beta iota.
    destruct (Ascii.eqb c ch) eqn:Heq; simpl; [assumption | ].
    right. exists c. split; [reflexivity | ].
    now apply Ascii.eqb_neq.
Qed.

Lemma ensure_follows_construction (ch : ascii) (l : Lexer.t) :
  In ch ["("; ","; ")"; ";"]%char ->
  sat (fun _ r => List.length r < List.length l) construction_error
      (ensure_follows ch l).
Proof.
  intros Hin. eapply sat_weaken; [apply ensure_follows_sat | auto | ].
  intros e [-> | (actual & -> & Hne)]; simpl; auto.
Qed.

(** ** The parser: progress, escaping exceptions, fuel *)

Section Parser.

Context {T : Type} `{Numeric T}.

Lemma int_sat (c : ascii) :
  match int c with
  | Ok n => (0 <= n <= 9)%Z
  | Raise e => e = ValueError c /\ construction_error e
  | OutOfFuel => False
  end.
Proof.
  unfold int. destruct (between 48 57 (code c)) eqn:Hb.
  - unfold between in Hb. apply andb_true_iff in Hb as [H1 H2].
    apply N.leb_le in H1, H2. lia.
  - split; [reflexivity | ]. simpl. unfold int. now rewrite Hb.
Qed.

Lemma parse_B_sat (l : Lexer.t) : consumes (A := @node T) l (parse_B l).
Proof.
  unfold consumes, parse_B.
  eapply sat_bind;
    [eapply sat_weaken; [apply next_sat | intros a r Hq; exact Hq | ] | ].
  { now intros e <-. }
  intros num r1 [_ Hlen1]. cbn beta iota.
  eapply sat_bind;
    [eapply sat_weaken; [apply peek_sat | intros a r Hq; exact Hq | ] | ].
  { now intros e <-. }
  intros nxt r2 (_ & (rest & ->) & Hlen2). cbn beta iota.
  destruct (isdigit nxt); [simpl in *; lia | ].
  destruct (Ascii.eqb (lower nxt) "a"); [simpl in *; lia | ].
  pose proof (int_sat num) as Hint.
  destruct (int num) as [n | e | ]; simpl in *; [lia | tauto | assumption].
Qed.

Section Productions.

Variable parse_T : Lexer.method (@node T).
Variable l : Lexer.t.
Hypothesis parse_T_consumes :
  forall l', List.length l' < List.length l ->
             consumes (A := @node T) l' (parse_T l').

Ltac production :=
  unfold consumes in *;
  repeat first
    [ eapply sat_bind;
      [ first [ apply ensure_follows_construction; simpl; tauto
              | apply parse_T_consumes; lia ]
      | intros ? ? ?; cbn beta iota in * ]
    | simpl; lia ].

Lemma parse_I_consumes : consumes (A := @node T) l (parse_I parse_T l).
Proof. unfold parse_I. production. Qed.

Lemma parse_S_consumes : consumes (A := @node T) l (parse_S parse_T l).
Proof. unfold parse_S. production. Qed.

Lemma parse_R_consumes : consumes (A := @node T) l (parse_R parse_T l).
Proof. unfold parse_R. production. Qed.

Lemma parse_D_consumes : consumes (A := @node T) l (parse_D parse_T l).
Proof. unfold parse_D. production. Qed.

Lemma dispatch_consumes (ch : ascii) :
  sat (fun _ r => List.length r < List.length l) construction_error
      (dispatch parse_T ch l).
Proof.
  unfold dispatch.
  destruct (Ascii.eqb ch "I") eqn:HI; [apply parse_I_consumes | ].
  destruct (Ascii.eqb ch "S") eqn:HS; [apply parse_S_consumes | ].
  destruct (Ascii.eqb ch "R") eqn:HR; [apply parse_R_consumes | ].
  destruct (Ascii.eqb ch "D") eqn:HD; [apply parse_D_consumes | ].
  destruct (Ascii.eqb ch "B") eqn:HB; [apply parse_B_sat | ].
  simpl. apply Ascii.eqb_neq in HI, HS, HR, HD, HB. intuition congruence.
Qed.

End Productions.

Lemma parse_T_consumes (fuel : nat) (l : Lexer.t) :
  List.length l < fuel -> consumes (A := @node T) l (parse_T fuel l).
Proof.
  revert l. induction fuel as [ | fuel IH]; intros l Hlen; [lia | ].
  unfold consumes. simpl.
  eapply sat_bind;
    [eapply sat_weaken; [apply next_sat | intros a r Hq; exact Hq | ] | ].
  { now intros e <-. }
  intros ch r [_ Hr]. cbn beta iota.
  eapply sat_weaken; [apply dispatch_consumes | | auto].
  - intros l' Hl'. apply IH. lia.
  - intros a r' Hr'. simpl in *. lia.
Qed.

Lemma parse_E_loop_sat (pT : Lexer.method (@node T)) (fuel : nat) :
  forall (vals : list (@node T)) (l : Lexer.t),
    (forall l', List.length l' < List.length l ->
                consumes (A := @node T) l' (pT l')) ->
    List.length l <= fuel ->
    sat (fun _ r => r = []) construction_error (parse_E_loop pT fuel vals l).
Proof.
  induction fuel as [ | fuel IH]; intros vals l HpT Hlen.
  - destruct l; [reflexivity | simpl in Hlen; lia].
  - destruct l as [ | c l]; [reflexivity | ].
    cbn [parse_E_loop].
    eapply sat_bind; [apply ensure_follows_construction; simpl; auto | ].
    intros u l1 Hl1. cbn beta iota in *.
    eapply sat_bind; [apply HpT; assumption | ].
    intros v l2 Hl2. cbn beta iota in *.
    apply IH; [ | simpl in *; lia].
    intros l' Hl'. apply HpT. lia.
Qed.

Lemma parse_E_sat (l : Lexer.t) :
  sat (fun _ r => r = []) construction_error
      (parse_E (S (List.length l)) l).
Proof.
  unfold parse_E.
  eapply sat_bind; [apply parse_T_consumes; lia | ].
  intros v l1 Hl1. cbn beta iota in *.
  apply parse_E_loop_sat; [ | lia].
  intros l' Hl'. apply parse_T_consumes. lia.
Qed.

Lemma __init___sat (expr : string) :
  match __init__ (T := T) expr with
  | Ok _ => True
  | Raise e => construction_error e
  | OutOfFuel => False
  end.
Proof.
  unfold __init__.
  pose proof (parse_E_sat (Lexer_of expr)) as Hs. cbv zeta.
  destruct (parse_E _ _) as [[parsed rest] | e | ]; simpl in *; auto.
Qed.

End Parser.

(** ** Characters *)

Lemma isdecimal_facts (c : ascii) :
  isdecimal c = true ->
  isspace c = false /\ isdigit c = true /\ int c = Ok (digit_value c) /\
  (0 <= digit_value c <= 9)%Z.
Proof.
  destruct c as [[] [] [] [] [] [] [] []]; vm_compute; intros Hc;
    try discriminate Hc; repeat split; congruence.
Qed.

Lemma getitem_last {A} (x : list A) (d : A) :
  x <> [] -> getitem x (-1) = Ok (last x d).
Proof.
  intros Hx. destruct (exists_last Hx) as (x' & a & ->).
  rewrite last_last. unfold getitem. rewrite length_app. simpl List.length.
  replace (-1 <? 0)%Z with true by reflexivity.
  replace (-1 + Z.of_nat (List.length x' + 1))%Z
    with (Z.of_nat (List.length x')) by lia.
  replace ((0 <=? Z.of_nat (List.length x')) &&
           (Z.of_nat (List.length x') <? Z.of_nat (List.length x' + 1)))%Z
    with true by (symmetry; apply andb_true_iff; split;
                  [apply Z.leb_le | apply Z.ltb_lt]; lia).
  rewrite Nat2Z.id, nth_error_app2, Nat.sub_diag by lia. reflexivity.
Qed.

(** ** The band production *)

Section Band.

Context {T : Type}.

Lemma next_cons (c : ascii) (rest : Lexer.t) :
  isspace c = false -> Lexer.next (c :: rest) = Ok (c, rest).
Proof. intros Hc. unfold Lexer.next. simpl. now rewrite Hc. Qed.

Lemma peek_skip (l : Lexer.t) (c : ascii) (rest : Lexer.t) :
  Lexer.skip_whitespace l = Ok (tt, c :: rest) ->
  Lexer.peek l = Ok (c, c :: rest).
Proof. intros Hs. unfold Lexer.peek. now rewrite Hs. Qed.

Lemma next_skip (l : Lexer.t) (c : ascii) (rest : Lexer.t) :
  Lexer.skip_whitespace l = Ok (tt, c :: rest) ->
  Lexer.next l = Ok (c, rest).
Proof. intros Hs. unfold Lexer.next. now rewrite Hs. Qed.

(** [parse_B], one case of its lookahead at a time. *)
Lemma parse_B_after (l l1 : Lexer.t) (num : ascii) :
  Lexer.skip_whitespace l = Ok (tt, num :: l1) ->
  parse_B (T := T) l =
  '(nxt, lexer) <- Lexer.peek l1 ;;
  if isdigit nxt then
    '(_, lexer) <- Lexer.popleft lexer ;; Ok (_band2_fun num nxt, lexer)
  else if Ascii.eqb (lower nxt) "a" then
    '(_, lexer) <- Lexer.popleft lexer ;; Ok (_band8a_fun, lexer)
  else
    n <- int num ;; Ok (_band1_fun (n - 1), lexer).
Proof.
  intros Hs. unfold parse_B. now rewrite (next_skip _ Hs).
Qed.

Lemma parse_B_two_characters (l l1 l2 : Lexer.t) (num nxt : ascii) :
  Lexer.skip_whitespace l = Ok (tt, num :: l1) ->
  Lexer.skip_whitespace l1 = Ok (tt, nxt :: l2) ->
  isdigit nxt = true ->
  parse_B (T := T) l = Ok (_band2_fun num nxt, l2).
Proof.
  intros Hs Hs1 Hd. rewrite (parse_B_after _ Hs), (peek_skip _ Hs1).
  simpl. now rewrite Hd.
Qed.

Lemma parse_B_suffix_a (l l1 l2 : Lexer.t) (num nxt : ascii) :
  Lexer.skip_whitespace l = Ok (tt, num :: l1) ->
  Lexer.skip_whitespace l1 = Ok (tt, nxt :: l2) ->
  isdigit nxt = false ->
  Ascii.eqb (lower nxt) "a" = true ->
  parse_B (T := T) l = Ok (_band8a_fun, l2).
Proof.
  intros Hs Hs1 Hd Ha. rewrite (parse_B_after _ Hs), (peek_skip _ Hs1).
  simpl. now rewrite Hd, Ha.
Qed.

Lemma parse_B_one_character (l l1 l2 : Lexer.t) (num nxt : ascii) :
  Lexer.skip_whitespace l = Ok (tt, num :: l1) ->
  Lexer.skip_whitespace l1 = Ok (tt, nxt :: l2) ->
  isdigit nxt = false ->
  Ascii.eqb (lower nxt) "a" = false ->
  parse_B (T := T) l = (n <- int num ;; Ok (_band1_fun (n - 1), nxt :: l2)).
Proof.
  intros Hs Hs1 Hd Ha. rewrite (parse_B_after _ Hs), (peek_skip _ Hs1).
  simpl. now rewrite Hd, Ha.
Qed.

Lemma parse_B_exhausted (l l1 : Lexer.t) (num : ascii) :
  Lexer.skip_whitespace l = Ok (tt, num :: l1) ->
  Lexer.skip_whitespace l1 = Raise IndexError ->
  parse_B (T := T) l = Raise IndexError.
Proof.
  intros Hs Hs1. rewrite (parse_B_after _ Hs). unfold Lexer.peek.
  now rewrite Hs1.
Qed.

Lemma skip_whitespace_cons (c : ascii) (rest : Lexer.t) :
  isspace c = false -> Lexer.skip_whitespace (c :: rest) = Ok (tt, c :: rest).
Proof. intros Hc. simpl. now rewrite Hc. Qed.

Lemma skip_whitespace_cases (l : Lexer.t) :
  Lexer.skip_whitespace l = Raise IndexError \/
  exists c rest,
    Lexer.skip_whitespace l = Ok (tt, c :: rest) /\ isspace c = false.
Proof.
  pose proof (skip_whitespace_sat l) as Hs.
  destruct (Lexer.skip_whitespace l) as [[[] r] | e | ]; simpl in Hs.
  - right. destruct Hs as (c & rest & -> & Hc & _). eauto.
  - left. now subst.
  - contradiction.
Qed.

End Band.

(** ** More fuel changes nothing *)

Section Fuel.

Context {T : Type} `{Numeric T}.

Lemma refines_trans {A} (r1 r2 r3 : result A) :
  refines r1 r2 -> refines r2 r3 -> refines r1 r3.
Proof. intros [-> | ->] H23; [now left | exact H23]. Qed.

Ltac monotone Hp :=
  repeat first
    [ apply refines_bind; [ first [ apply Hp | now right ] | intros [? ?] ]
    | now right ].

Section Productions.

Variables parse_T parse_T' : Lexer.method (@node T).
Hypothesis parse_T_refines : forall l, refines (parse_T l) (parse_T' l).

Lemma dispatch_refines (ch : ascii) (l : Lexer.t) :
  refines (dispatch parse_T ch l) (dispatch parse_T' ch l).
Proof.
  unfold dispatch.
  destruct (Ascii.eqb ch "I"); [unfold parse_I; monotone parse_T_refines | ].
  destruct (Ascii.eqb ch "S"); [unfold parse_S; monotone parse_T_refines | ].
  destruct (Ascii.eqb ch "R"); [unfold parse_R; monotone parse_T_refines | ].
  destruct (Ascii.eqb ch "D"); [unfold parse_D; monotone parse_T_refines | ].
  now right.
Qed.

Lemma parse_E_loop_refines (n m : nat) :
  n <= m ->
  forall vals l,
    refines (parse_E_loop parse_T n vals l) (parse_E_loop parse_T' m vals l).
Proof.
  revert m. induction n as [ | n IH]; intros m Hnm vals l.
  - destruct l; [destruct m; now right | now left].
  - destruct m as [ | m]; [lia | ].
    destruct l as [ | c l]; [now right | ].
    cbn [parse_E_loop].
    apply refines_bind; [now right | intros [u l1]].
    apply refines_bind; [apply parse_T_refines | intros [v l2]].
    apply IH. lia.
Qed.

End Productions.

Lemma parse_T_refines_S (fuel : nat) :
  forall l, refines (parse_T (T := T) fuel l) (parse_T (S fuel) l).
Proof.
  induction fuel as [ | fuel IH]; intros l; [now left | ].
  cbn [parse_T].
  apply refines_bind; [now right | intros [ch l1]].
  now apply dispatch_refines.
Qed.

Lemma parse_T_refines (n m : nat) :
  n <= m -> forall l, refines (parse_T (T := T) n l) (parse_T m l).
Proof.
  induction 1 as [ | m _ IH]; intros l; [now right | ].
  eapply refines_trans; [apply IH | apply parse_T_refines_S].
Qed.

Lemma parse_E_refines (n m : nat) (l : Lexer.t) :
  n <= m -> refines (parse_E (T := T) n l) (parse_E m l).
Proof.
  intros Hnm. unfold parse_E.
  apply refines_bind; [now apply parse_T_refines | intros [v l1]].
  apply parse_E_loop_refines; [now apply parse_T_refines | assumption].
Qed.

(** Any fuel above the length of the input gives what [__init__] gets. *)
Lemma parse_T_enough (fuel : nat) (l : Lexer.t) :
  List.length l < fuel ->
  parse_T (T := T) fuel l = parse_T (S (List.length l)) l.
Proof.
  intros Hlen. apply refines_defined; [apply parse_T_refines; lia | ].
  pose proof (@parse_T_consumes T _ (S (List.length l)) l) as Hs.
  intros Hout. unfold consumes in Hs. rewrite Hout in Hs. apply Hs. lia.
Qed.

Lemma parse_E_enough (fuel : nat) (l : Lexer.t) :
  List.length l < fuel ->
  parse_E (T := T) fuel l = parse_E (S (List.length l)) l.
Proof.
  intros Hlen. apply refines_defined; [apply parse_E_refines; lia | ].
  pose proof (@parse_E_sat T _ l) as Hs.
  intros Hout. rewrite Hout in Hs. exact Hs.
Qed.

End Fuel.

(** ** Input that follows a run is left alone *)

Section Frame.

Context {T : Type} `{Numeric T}.

Variable s : Lexer.t.

Lemma frames_bind {A B} (r1 r2 : result (A * Lexer.t))
    (k1 k2 : A * Lexer.t -> result (B * Lexer.t)) :
  frames s r1 r2 ->
  (forall a l, frames s (k1 (a, l)) (k2 (a, l ++ s))) ->
  frames s (Py.bind r1 k1) (Py.bind r2 k2).
Proof.
  intros Hr Hk b l' Hb.
  destruct r1 as [[a l] | e | ]; simpl in Hb; try discriminate.
  rewrite (Hr a l eq_refl). simpl. now apply Hk.
Qed.

Lemma frames_Ok {A} (a : A) (l : Lexer.t) :
  frames s (Ok (a, l)) (Ok (a, l ++ s)).
Proof. intros a' l' [= <- <-]. reflexivity. Qed.

Lemma frames_Raise {A} (e : exn) (r : result (A * Lexer.t)) :
  frames s (Raise e) r.
Proof. intros a l [=]. Qed.

Lemma skip_whitespace_frames (l : Lexer.t) :
  frames s (Lexer.skip_whitespace l) (Lexer.skip_whitespace (l ++ s)).
Proof.
  induction l as [ | c l IH]; intros u l' Hl; simpl in *; [discriminate | ].
  destruct (isspace c); [now apply IH | ].
  now injection Hl as <- <-.
Qed.

Lemma popleft_frames (l : Lexer.t) :
  frames s (Lexer.popleft l) (Lexer.popleft (l ++ s)).
Proof. destruct l; [apply frames_Raise | apply frames_Ok]. Qed.

Lemma next_frames (l : Lexer.t) :
  frames s (Lexer.next l) (Lexer.next (l ++ s)).
Proof.
  unfold Lexer.next.
  apply frames_bind; [apply skip_whitespace_frames | ].
  intros u l'. apply popleft_frames.
Qed.

Lemma peek_frames (l : Lexer.t) :
  frames s (Lexer.peek l) (Lexer.peek (l ++ s)).
Proof.
  unfold Lexer.peek.
  apply frames_bind; [apply skip_whitespace_frames | ].
  intros u [ | c l']; [apply frames_Raise | simpl; apply @frames_Ok].
Qed.

Lemma ensure_follows_frames (ch : ascii) (l : Lexer.t) :
  frames s (ensure_follows ch l) (ensure_follows ch (l ++ s)).
Proof.
  unfold ensure_follows.
  apply frames_bind; [apply next_frames | ].
  intros c l'. cbn beta iota.
  destruct (negb (Ascii.eqb c ch)); [apply frames_Raise | apply frames_Ok].
Qed.

Lemma parse_B_frames (l : Lexer.t) :
  frames s (parse_B (T := T) l) (parse_B (l ++ s)).
Proof.
  unfold parse_B.
  apply frames_bind; [apply next_frames | intros num l1; cbn beta iota].
  apply frames_bind; [apply peek_frames | intros nxt l2; cbn beta iota].
  destruct (isdigit nxt).
  - apply frames_bind; [apply popleft_frames | intros c l3; apply frames_Ok].
  - destruct (Ascii.eqb (lower nxt) "a").
    + apply frames_bind; [apply popleft_frames | intros c l3; apply frames_Ok].
    + destruct (int num); simpl;
        [apply frames_Ok | apply frames_Raise | intros a l' [=]].
Qed.

Ltac framed Hp :=
  repeat first
    [ apply frames_bind;
      [ first [ apply ensure_follows_frames | apply Hp ]
      | intros ? ?; cbn beta iota ]
    | apply frames_Ok ].

Section Productions.

Variable parse_T : Lexer.method (@node T).
Hypothesis parse_T_frames : forall l, frames s (parse_T l) (parse_T (l ++ s)).

Lemma dispatch_frames (ch : ascii) (l : Lexer.t) :
  frames s (dispatch parse_T ch l) (dispatch parse_T ch (l ++ s)).
Proof.
  unfold dispatch.
  destruct (Ascii.eqb ch "I"); [unfold parse_I; framed parse_T_frames | ].
  destruct (Ascii.eqb ch "S"); [unfold parse_S; framed parse_T_frames | ].
  destruct (Ascii.eqb ch "R"); [unfold parse_R; framed parse_T_frames | ].
  destruct (Ascii.eqb ch "D"); [unfold parse_D; framed parse_T_frames | ].
  destruct (Ascii.eqb ch "B"); [apply parse_B_frames | apply frames_Raise].
Qed.

(** The loop of [parse_E], once it has emptied [l], goes on with [s]. *)
Lemma parse_E_loop_frames (n m : nat) :
  forall vals l vals',
    parse_E_loop parse_T n vals l = Ok (vals', []) ->
    refines (parse_E_loop parse_T m vals' s)
            (parse_E_loop parse_T (n + m) vals (l ++ s)).
Proof.
  induction n as [ | n IH]; intros vals l vals' Hl.
  - destruct l; [ | discriminate]. injection Hl as <-. now right.
  - destruct l as [ | c l].
    + injection Hl as <-. simpl app.
      apply parse_E_loop_refines; [intros; now right | lia].
    + cbn [parse_E_loop] in Hl.
      destruct (ensure_follows ";" (c :: l)) as [[u l1] | e | ] eqn:He;
        try discriminate.
      simpl in Hl.
      destruct (parse_T l1) as [[v l2] | e | ] eqn:Hv; try discriminate.
      simpl in Hl.
      change ((c :: l) ++ s) with (c :: l ++ s).
      cbn [parse_E_loop Nat.add].
      change (c :: l ++ s) with ((c :: l) ++ s).
      rewrite (ensure_follows_frames ";" (c :: l) He). simpl.
      rewrite (parse_T_frames Hv). simpl.
      now apply IH.
Qed.

End Productions.

Lemma parse_T_frames (fuel : nat) :
  forall l, frames s (parse_T (T := T) fuel l) (parse_T fuel (l ++ s)).
Proof.
  induction fuel as [ | fuel IH]; intros l; [intros a l' [=] | ].
  cbn [parse_T].
  apply frames_bind; [apply next_frames | intros ch l1; cbn beta iota].
  now apply dispatch_frames.
Qed.

End Frame.

(** ** A compiled formula followed by more input *)

Section Append.

Context {T : Type} `{Numeric T}.

Lemma Lexer_of_app (s1 s2 : string) :
  Lexer_of (s1 ++ s2) = Lexer_of s1 ++ Lexer_of s2.
Proof.
  unfold Lexer_of. induction s1 as [ | c s1 IH]; simpl; [reflexivity | ].
  now rewrite IH.
Qed.

Lemma __init___parse_E (expr : string) (parsed : list (@node T)) :
  __init__ expr = Ok parsed ->
  parse_E (S (List.length (Lexer_of expr))) (Lexer_of expr) = Ok (parsed, []).
Proof.
  unfold __init__. cbv zeta. intros Hi.
  pose proof (@parse_E_sat T _ (Lexer_of expr)) as Hs.
  destruct (parse_E _ _) as [[p rest] | e | ]; simpl in *; try discriminate.
  injection Hi as ->. now subst.
Qed.

Lemma parse_E_loop_enough (pT : Lexer.method (@node T)) (n m : nat)
    (vals : list (@node T)) (l : Lexer.t) :
  (forall l', List.length l' < List.length l -> consumes l' (pT l')) ->
  List.length l <= n -> n <= m ->
  parse_E_loop pT m vals l = parse_E_loop pT n vals l.
Proof.
  intros HpT Hn Hm. apply refines_defined.
  - apply parse_E_loop_refines; [intros; now right | assumption].
  - pose proof (@parse_E_loop_sat T pT n vals l HpT Hn) as Hs.
    intros Hout. now rewrite Hout in Hs.
Qed.

(** After a formula that compiles, the loop of [parse_E] goes on with
    what follows it. *)
Lemma parse_E_append (l s : Lexer.t) (parsed : list (@node T)) (F m : nat) :
  parse_E (S (List.length l)) l = Ok (parsed, []) ->
  List.length (l ++ s) < F ->
  m <= S (List.length s) ->
  refines (parse_E_loop (parse_T F) m parsed s) (parse_E F (l ++ s)).
Proof.
  intros Hl HF Hm. rewrite length_app in HF.
  rewrite <- (@parse_E_enough T _ F l) in Hl by lia.
  unfold parse_E in *.
  pose proof (@parse_T_consumes T _ F l ltac:(lia)) as Hc.
  destruct (parse_T F l) as [[v l1] | e | ] eqn:Hv; try discriminate.
  unfold consumes in Hc. simpl in Hc, Hl.
  rewrite (parse_T_frames s F l Hv). simpl.
  assert (HpT : forall l', List.length l' < List.length l1 ->
                           consumes l' (parse_T (T := T) F l'))
    by (intros l' Hl'; apply parse_T_consumes; lia).
  rewrite (@parse_E_loop_enough (parse_T F) (List.length l1) F [v] l1 HpT)
    in Hl by lia.
  eapply refines_trans.
  - apply parse_E_loop_frames; [intro; apply parse_T_frames | exact Hl].
  - apply parse_E_loop_refines; [intros; now right | lia].
Qed.

Lemma __init___append (expr tail : string) (parsed : list (@node T)) :
  __init__ expr = Ok parsed ->
  refines
    ('(p, _) <- parse_E_loop
                  (parse_T (S (List.length (Lexer_of (expr ++ tail)))))
                  (S (List.length (Lexer_of tail))) parsed (Lexer_of tail) ;;
     Ok p)
    (__init__ (expr ++ tail)).
Proof.
  intros Hi. apply __init___parse_E in Hi.
  unfold __init__. cbv zeta.
  assert (HF : List.length (Lexer_of expr ++ Lexer_of tail)
               < S (List.length (Lexer_of (expr ++ tail))))
    by (rewrite Lexer_of_app; lia).
  revert HF. generalize (S (List.length (Lexer_of (expr ++ tail)))).
  intros F HF. rewrite Lexer_of_app.
  apply refines_bind; [ | intros [p rest]; now right].
  apply parse_E_append; [assumption | assumption | lia].
Qed.

End Append.

(** ** Whitespace before a character is transparent *)

Section Whitespace.

Context {T : Type} `{Numeric T}.

Lemma related_bind {A B} (R R' : Lexer.t -> Lexer.t -> Prop)
    (r1 r2 : result (A * Lexer.t))
    (k1 k2 : A * Lexer.t -> result (B * Lexer.t)) :
  related R r1 r2 ->
  (forall a l l', R l l' -> related R' (k1 (a, l)) (k2 (a, l'))) ->
  related R' (Py.bind r1 k1) (Py.bind r2 k2).
Proof.
  destruct r1 as [[a1 l1] | e1 | ], r2 as [[a2 l2] | e2 | ]; simpl;
    try contradiction; auto.
  intros [<- HR] Hk. now apply Hk.
Qed.

Lemma aligned_ws_insert (l l' : Lexer.t) : aligned l l' -> ws_insert l l'.
Proof. intros (c & r & r' & -> & -> & Hr). now apply ws_keep. Qed.

Lemma ws_insert_length (l l' : Lexer.t) :
  ws_insert l l' -> List.length l <= List.length l'.
Proof. induction 1; simpl in *; lia. Qed.

Lemma skip_whitespace_related (l l' : Lexer.t) :
  ws_insert l l' ->
  related aligned (Lexer.skip_whitespace l) (Lexer.skip_whitespace l').
Proof.
  induction 1 as [ | c l l' Hl IH | w c l l' Hw Hl IH].
  - reflexivity.
  - simpl. destruct (isspace c); [exact IH | ].
    simpl. split; [reflexivity | ]. exists c, l, l'. auto.
  - change (Lexer.skip_whitespace (w :: l'))
      with (if isspace w then Lexer.skip_whitespace l' else Ok (tt, w :: l')).
    rewrite Hw. exact IH.
Qed.

Lemma popleft_related (l l' : Lexer.t) :
  aligned l l' -> related ws_insert (Lexer.popleft l) (Lexer.popleft l').
Proof. intros (c & r & r' & -> & -> & Hr). simpl. auto. Qed.

Lemma next_related (l l' : Lexer.t) :
  ws_insert l l' -> related ws_insert (Lexer.next l) (Lexer.next l').
Proof.
  intros Hl. unfold Lexer.next.
  eapply related_bind; [apply skip_whitespace_related, Hl | ].
  intros u l1 l1' Hl1. now apply popleft_related.
Qed.

Lemma peek_related (l l' : Lexer.t) :
  ws_insert l l' -> related aligned (Lexer.peek l) (Lexer.peek l').
Proof.
  intros Hl. unfold Lexer.peek.
  eapply related_bind; [apply skip_whitespace_related, Hl | ].
  intros u l1 l1' (c & r & r' & -> & -> & Hr). simpl.
  split; [reflexivity | ]. exists c, r, r'. auto.
Qed.

Lemma ensure_follows_related (ch : ascii) (l l' : Lexer.t) :
  ws_insert l l' ->
  related ws_insert (ensure_follows ch l) (ensure_follows ch l').
Proof.
  intros Hl. unfold ensure_follows.
  eapply related_bind; [apply next_related, Hl | ].
  intros c l1 l1' Hl1. cbn beta iota.
  destruct (negb (Ascii.eqb c ch)); simpl; auto.
Qed.

Lemma parse_B_related (l l' : Lexer.t) :
  ws_insert l l' ->
  related ws_insert (parse_B (T := T) l) (parse_B l').
Proof.
  intros Hl. unfold parse_B.
  eapply related_bind; [apply next_related, Hl | ].
  intros num l1 l1' Hl1. cbn beta iota.
  eapply related_bind; [apply peek_related, Hl1 | ].
  intros nxt l2 l2' Hl2. cbn beta iota.
  destruct (isdigit nxt).
  - eapply related_bind; [apply popleft_related, Hl2 | ].
    intros c l3 l3' Hl3. simpl. auto.
  - destruct (Ascii.eqb (lower nxt) "a").
    + eapply related_bind; [apply popleft_related, Hl2 | ].
      intros c l3 l3' Hl3. simpl. auto.
    + destruct (int num); simpl; auto using aligned_ws_insert.
Qed.

Ltac relate Hp :=
  repeat first
    [ eapply related_bind;
      [ first [ apply ensure_follows_related; assumption
              | apply Hp; assumption ]
      | intros ? ? ? ?; cbn beta iota ]
    | simpl; auto ].

Section Productions.

Variable parse_T : Lexer.method (@node T).
Hypothesis parse_T_related :
  forall l l', ws_insert l l' -> related ws_insert (parse_T l) (parse_T l').

Lemma dispatch_related (ch : ascii) (l l' : Lexer.t) :
  ws_insert l l' ->
  related ws_insert (dispatch parse_T ch l) (dispatch parse_T ch l').
Proof.
  intros Hl. unfold dispatch.
  destruct (Ascii.eqb ch "I"); [unfold parse_I; relate parse_T_related | ].
  destruct (Ascii.eqb ch "S"); [unfold parse_S; relate parse_T_related | ].
  destruct (Ascii.eqb ch "R"); [unfold parse_R; relate parse_T_related | ].
  destruct (Ascii.eqb ch "D"); [unfold parse_D; relate parse_T_related | ].
  destruct (Ascii.eqb ch "B"); [now apply parse_B_related | reflexivity].
Qed.

Lemma parse_E_loop_related (fuel : nat) :
  forall vals l l',
    ws_insert l l' ->
    related ws_insert (parse_E_loop parse_T fuel vals l)
                      (parse_E_loop parse_T fuel vals l').
Proof.
  induction fuel as [ | fuel IH]; intros vals l l' Hl.
  - destruct Hl; simpl; auto using ws_nil.
  - destruct Hl as [ | c l l' Hl | w c l l' Hw Hl].
    + simpl. auto using ws_nil.
    + cbn [parse_E_loop].
      eapply related_bind;
        [apply ensure_follows_related, ws_keep, Hl | ].
      intros u l1 l1' Hl1. cbn beta iota.
      eapply related_bind; [apply parse_T_related, Hl1 | ].
      intros v l2 l2' Hl2. cbn beta iota. now apply IH.
    + cbn [parse_E_loop].
      eapply related_bind;
        [apply ensure_follows_related, ws_space; [exact Hw | exact Hl] | ].
      intros u l1 l1' Hl1. cbn beta iota.
      eapply related_bind; [apply parse_T_related, Hl1 | ].
      intros v l2 l2' Hl2. cbn beta iota. now apply IH.
Qed.

End Productions.

Lemma parse_T_related (fuel : nat) :
  forall l l',
    ws_insert l l' ->
    related ws_insert (parse_T (T := T) fuel l) (parse_T fuel l').
Proof.
  induction fuel as [ | fuel IH]; intros l l' Hl; [exact I | ].
  cbn [parse_T].
  eapply related_bind; [apply next_related, Hl | ].
  intros ch l1 l1' Hl1. cbn beta iota. now apply dispatch_related.
Qed.

Lemma parse_E_related (fuel : nat) (l l' : Lexer.t) :
  ws_insert l l' ->
  related ws_insert (parse_E (T := T) fuel l) (parse_E fuel l').
Proof.
  intros Hl. unfold parse_E.
  eapply related_bind; [apply parse_T_related, Hl | ].
  intros v l1 l1' Hl1. cbn beta iota.
  apply parse_E_loop_related; [apply parse_T_related | assumption].
Qed.

(** Construction gives the same outcome, closures or exception, on a
    formula and on the formula with whitespace inserted before any of
    its characters. *)
Lemma whitespace_insertion_transparent (expr expr' : string) :
  ws_insert (Lexer_of expr) (Lexer_of expr') ->
  __init__ (T := T) expr' = __init__ expr.
Proof.
  intros Hl. unfold __init__. cbv zeta.
  pose proof (ws_insert_length Hl) as Hlen.
  rewrite <- (@parse_E_enough T _ (S (List.length (Lexer_of expr')))
                (Lexer_of expr)) by lia.
  pose proof (parse_E_related (S (List.length (Lexer_of expr'))) Hl) as Hr.
  destruct (parse_E _ (Lexer_of expr)) as [[p r] | e | ],
           (parse_E _ (Lexer_of expr')) as [[p' r'] | e' | ];
    simpl in *; try contradiction; try reflexivity.
  - destruct Hr as [-> _]. reflexivity.
  - now subst.
Qed.

End Whitespace.

(** ** Operator nodes and the expression set *)

Lemma bind_Ok {A B} (r : result A) (k : A -> result B) (b : B) :
  Py.bind r k = Ok b -> exists a, r = Ok a /\ k a = Ok b.
Proof. destruct r as [a | e | ]; simpl; [eauto | discriminate ..]. Qed.

Ltac bind_inversion H :=
  repeat match type of H with
         | Py.bind ?r ?k = Ok _ =>
             let v := fresh "v" in
             let l := fresh "l" in
             let Hr := fresh "Hr" in
             apply bind_Ok in H as ([v l] & Hr & H); cbn beta iota in H
         end.

Ltac production_inversion H :=
  bind_inversion H; injection H as <- <-;
  repeat match goal with u : unit |- _ => destruct u end;
  repeat eexists; eassumption.

Section Operators.

Context {T : Type} `{Numeric T}.

Variable parse_T : Lexer.method (@node T).

Lemma parse_I_Ok (lexer rest : Lexer.t) (f : @node T) :
  parse_I parse_T lexer = Ok (f, rest) ->
  exists val_fst val_snd,
    two_arguments parse_T lexer val_fst val_snd rest /\
    f = _index_fun val_fst val_snd.
Proof.
  unfold parse_I. intros Hp. production_inversion Hp.
Qed.

Lemma parse_S_Ok (lexer rest : Lexer.t) (f : @node T) :
  parse_S parse_T lexer = Ok (f, rest) ->
  exists val_fst val_snd,
    two_arguments parse_T lexer val_fst val_snd rest /\
    f = _diff_fun val_fst val_snd.
Proof.
  unfold parse_S. intros Hp. production_inversion Hp.
Qed.

Lemma parse_R_Ok (lexer rest : Lexer.t) (f : @node T) :
  parse_R parse_T lexer = Ok (f, rest) ->
  exists val_fst val_snd,
    two_arguments parse_T lexer val_fst val_snd rest /\
    f = _ratio_fun val_fst val_snd.
Proof.
  unfold parse_R. intros Hp. production_inversion Hp.
Qed.

Lemma parse_D_Ok (lexer rest : Lexer.t) (f : @node T) :
  parse_D parse_T lexer = Ok (f, rest) ->
  exists val_fst val_snd val_thd,
    three_arguments parse_T lexer val_fst val_snd val_thd rest /\
    f = _sum_over_fun val_fst val_snd val_thd.
Proof.
  unfold parse_D. intros Hp. production_inversion Hp.
Qed.

Lemma parse_E_loop_terms (fuel : nat) :
  forall vals lexer parsed rest,
    parse_E_loop parse_T fuel vals lexer = Ok (parsed, rest) ->
    exists vs, parsed = vals ++ vs /\ more_terms parse_T lexer vs.
Proof.
  induction fuel as [ | fuel IH]; intros vals lexer parsed rest Hp.
  - destruct lexer; [ | discriminate]. injection Hp as <- <-.
    exists []. rewrite app_nil_r. split; [reflexivity | constructor].
  - destruct lexer as [ | c lexer].
    + injection Hp as <- <-.
      exists []. rewrite app_nil_r. split; [reflexivity | constructor].
    + cbn [parse_E_loop] in Hp.
      apply bind_Ok in Hp as ([[] l1] & He & Hp). cbn beta iota in Hp.
      apply bind_Ok in Hp as ([v l2] & Hv & Hp). cbn beta iota in Hp.
      apply IH in Hp as (vs & -> & Hvs).
      exists (v :: vs). rewrite <- app_assoc. split; [reflexivity | ].
      econstructor; eassumption.
Qed.

Lemma __call___Forall2 (parsed : list (@node T)) (x : list T) :
  forall vals,
    __call__ parsed x = Ok vals <->
    Forall2 (fun f v => f x = Ok v) parsed vals.
Proof.
  induction parsed as [ | f parsed IH]; intros vals; simpl.
  - split; [intros [= <-]; constructor | inversion 1; reflexivity].
  - split.
    + intros Hc. apply bind_Ok in Hc as (v & Hv & Hc).
      apply bind_Ok in Hc as (vs & Hvs & Hc). injection Hc as <-.
      constructor; [assumption | now apply IH].
    + inversion 1 as [ | f' v parsed' vs Hv Hvs]; subst.
      rewrite Hv. simpl. apply IH in Hvs. now rewrite Hvs.
Qed.

End Operators.

(** ** Division by zero in the two float arithmetics *)

(** The closures take [/] from the band values: on Python floats the
    ratio of 1 by 0 raises, on numpy's [float64] it is an infinity. *)
Example ratio_by_zero :
  (p <- __init__ (H := float_Numeric) "R(B1,B2)" ;; __call__ p [1; 0]%float)
  = Raise ZeroDivisionError /\
  (p <- __init__ (H := float64_Numeric) "R(B1,B2)" ;; __call__ p [1; 0]%float)
  = Ok [infinity].
Proof. split; reflexivity. Qed.

(** ** The end of the input *)

Lemma isdigit_not_space (c : ascii) : isdigit c = true -> isspace c = false.
Proof.
  destruct c as [[] [] [] [] [] [] [] []]; vm_compute; intros Hc;
    congruence.
Qed.

Lemma skip_whitespace_last (d : ascii) :
  isspace d = false ->
  Lexer.skip_whitespace [d] = Ok (tt, [d]) /\
  Lexer.skip_whitespace (@nil ascii) = Raise IndexError.
Proof. intros Hd. simpl. now rewrite Hd. Qed.

Lemma parse_T_band_at_end (T : Type) `{Numeric T} (fuel : nat)
    (l l1 l2 : Lexer.t) (d : ascii) :
  Lexer.skip_whitespace l = Ok (tt, "B"%char :: l1) ->
  Lexer.skip_whitespace l1 = Ok (tt, d :: l2) ->
  Lexer.skip_whitespace l2 = Raise IndexError ->
  parse_T (T := T) (S fuel) l = Raise IndexError.
Proof.
  intros Hs Hs1 Hs2. cbn [parse_T]. rewrite (next_skip _ Hs). cbn [Py.bind].
  change (dispatch (parse_T fuel) "B") with (@parse_B T).
  unfold parse_B. rewrite (next_skip _ Hs1). cbn [Py.bind].
  unfold Lexer.peek. now rewrite Hs2.
Qed.

Lemma parse_E_loop_band_at_end (T : Type) `{Numeric T} (F n : nat)
    (parsed : list (@node T)) (d : ascii) :
  isspace d = false ->
  parse_E_loop (parse_T (S F)) (S n) parsed [";"%char; "B"%char; d]
  = Raise IndexError.
Proof.
  intros Hd. cbn [parse_E_loop].
  assert (He : ensure_follows ";" [";"%char; "B"%char; d]
               = Ok (tt, ["B"%char; d])) by reflexivity.
  rewrite He. cbn [Py.bind].
  rewrite (@parse_T_band_at_end T _ F ["B"%char; d] [d] [] d);
    [reflexivity | reflexivity | simpl; now rewrite Hd | reflexivity].
Qed.

Lemma skip_whitespace_all_space (l : Lexer.t) :
  Forall (fun c => isspace c = true) l ->
  Lexer.skip_whitespace l = Raise IndexError.
Proof.
  induction 1 as [ | c l Hc _ IH]; simpl; [reflexivity | ].
  now rewrite Hc.
Qed.

(** A compiled formula followed by whitespace only: [while lexer:] in
    [parse_E] finds the lexer non-empty, [ensure_follows] asks for the
    next character, and [skip_whitespace] runs off the end of the
    list. *)
Lemma trailing_whitespace_IndexError (T : Type) `{Numeric T}
    (expr ws : string) (parsed : list (@node T)) :
  __init__ expr = Ok parsed ->
  ws <> EmptyString ->
  Forall (fun c => isspace c = true) (Lexer_of ws) ->
  __init__ (T := T) (expr ++ ws) = Raise IndexError.
Proof.
  intros Hi Hne Hws.
  pose proof (@__init___append T _ expr ws parsed Hi) as Hr.
  assert (Hloop : forall pT n,
             parse_E_loop (T := T) pT (S n) parsed (Lexer_of ws)
             = Raise IndexError).
  { intros pT n. destruct ws as [ | c ws]; [congruence | ].
    change (Lexer_of (String c ws)) with (c :: Lexer_of ws) in *.
    cbn [parse_E_loop]. unfold ensure_follows, Lexer.next.
    now rewrite (skip_whitespace_all_space Hws). }
  rewrite Hloop in Hr.
  apply refines_defined in Hr; [exact Hr | discriminate].
Qed.

(** * The claims of the specification *)

(** C1, as stated, fails: the unknown operator of "X(B01,B02)" escapes
    construction as the [KeyError] of the dispatch, and the missing
    parenthesis of "I(B01,B02" as the [IndexError] of the exhausted
    lexer; neither is a [SyntaxError]. *)
Lemma construction_not_only_SyntaxError :
  ~ compiled_or_SyntaxError (__init__ (T := float) "X(B01,B02)") /\
  ~ compiled_or_SyntaxError (__init__ (T := float) "I(B01,B02").
Proof.
  split; intros Hc; vm_compute in Hc; discriminate Hc.
Qed.

(** C1, amended: for every input string, construction yields a compiled
    expression set or raises one of four exceptions: the [SyntaxError]
    of [ensure_follows] reporting the expected and the actual character
    (as for "I(B01;B02)"), [IndexError] when the input is exhausted (as
    for "I(B01,B02"), [KeyError] for a character that starts no
    production (as for "X(B01,B02)"), or [ValueError] for a band label
    whose first character is not a decimal digit (as for "Bx;B01"). *)
Theorem construction_outcomes (T : Type) `{Numeric T} :
  (forall expr : string,
      match __init__ (T := T) expr with
      | Ok _ => True
      | Raise e => construction_error e
      | OutOfFuel => False
      end) /\
  __init__ (T := T) "I(B01;B02)" = Raise (SyntaxError "," ";") /\
  __init__ (T := T) "I(B01,B02" = Raise IndexError /\
  __init__ (T := T) "X(B01,B02)" = Raise (KeyError "X") /\
  __init__ (T := T) "Bx;B01" = Raise (ValueError "x").
Proof.
  split; [intros expr; apply __init___sat | ].
  repeat split; reflexivity.
Qed.

(** C2: for every label of the declared domain, [parse_B] on a lexer
    that holds the label (ended, for a one-character label, by a
    lookahead that is neither a digit nor 'a'/'A') returns an evaluator
    that reads exactly the offset of the table: "1".."8" give 0..7,
    "8A"/"8a" gives 8, "9" gives 9, "10", "11", "12" give 10, 11, 12. *)
Theorem band_label_reads_its_offset (T : Type) (label : string) (k : Z)
    (rest : Lexer.t) :
  band_index label = Some k ->
  delimited label rest ->
  exists (band : @node T) (rest' : Lexer.t),
    parse_B (Lexer_of label ++ rest) = Ok (band, rest') /\
    after_label label rest rest' /\
    forall x, band x = getitem x k.
Proof.
  unfold band_index, band_table. intros Hk Hd.
  cbn [find fst] in Hk.
  repeat match type of Hk with
         | context [String.eqb ?a label] =>
             destruct (String.eqb_spec a label) as [<- | _]
         end;
    try discriminate Hk; injection Hk as <-;
    first
      [ (* one character, then the lookahead *)
        destruct (Hd eq_refl) as (c & rest' & Hs & Hc & Ha);
        eexists _, (c :: rest'); split;
        [ erewrite parse_B_one_character;
          [ | reflexivity | exact Hs | exact Hc | exact Ha ]; reflexivity
        | split; [exact Hs | intros x; reflexivity] ]
      | (* two characters, the second one a digit *)
        eexists _, rest; split;
        [ eapply parse_B_two_characters; reflexivity
        | split; [reflexivity | intros x; reflexivity] ]
      | (* "8A" and "8a" *)
        eexists _, rest; split;
        [ eapply parse_B_suffix_a; reflexivity
        | split; [reflexivity | intros x; reflexivity] ] ].
Qed.

Lemma band_label_reads_its_offset_witness :
  band_index "9" = Some 9%Z /\
  delimited "9" [";"%char] /\
  exists (band : @node float) (rest' : Lexer.t),
    parse_B (Lexer_of "9" ++ [";"%char]) = Ok (band, rest') /\
    after_label "9" [";"%char] rest' /\
    forall x, band x = getitem x 9%Z.
Proof.
  assert (Hd : delimited "9" [";"%char])
    by (intros _; exists ";"%char, []; repeat split; reflexivity).
  split; [reflexivity | split; [exact Hd | ]].
  apply (@band_label_reads_its_offset float "9" 9%Z [";"%char]);
    [reflexivity | exact Hd].
Defined.

(** C3 fails on the code: "I(B08,B04)" compiles, but each zero-padded
    label goes through the two-digit branch of [parse_B], so the
    evaluator reads the offsets 10*0+8 = 8 and 10*0+4 = 4 and not 7
    and 3.  On a vector whose element at index 7 is 0.6 and whose
    element at index 3 is 0.2 (the others being 1) it returns
    (1-1)/(1+1) = 0.  The unpadded labels of "I(B8,B4)" go through the
    one-digit branch and do read the offsets 7 and 3: on the same
    vector the result is the binary64 quotient of 0.6-0.2 by 0.6+0.2,
    0.49999999999999994. *)
Theorem ndvi_formula_reads_offsets_8_and_4 :
  exists parsed unpadded : list (@node float),
    __init__ "I(B08,B04)" = Ok parsed /\
    (forall x : list float,
        __call__ parsed x =
        (v1 <- getitem x 8%Z ;;
         v2 <- getitem x 4%Z ;;
         q <- truediv (sub v1 v2) (add v1 v2) ;;
         Ok [q])) /\
    getitem ndvi_vector 7%Z = Ok 0.6%float /\
    getitem ndvi_vector 3%Z = Ok 0.2%float /\
    __call__ parsed ndvi_vector = Ok [0%float] /\
    __init__ "I(B8,B4)" = Ok unpadded /\
    __call__ unpadded ndvi_vector = Ok [0x1.fffffffffffffp-2%float].
Proof.
  eexists _, _. split; [reflexivity | ].
  split; [ | repeat split; vm_compute; reflexivity].
  intros x. unfold __call__, _index_fun, _band2_fun.
  change (int "0") with (@Ok Z 0%Z). change (int "8") with (@Ok Z 8%Z).
  change (int "4") with (@Ok Z 4%Z). cbn [Py.bind].
  change (10 * 0 + 8)%Z with 8%Z. change (10 * 0 + 4)%Z with 4%Z.
  destruct (getitem x 8) as [v1 | e | ]; cbn [Py.bind]; [ | reflexivity ..].
  destruct (getitem x 4) as [v2 | e | ]; reflexivity.
Qed.

(** C4: an operator node that [parse_T] compiled has, as children, the
    evaluators compiled from its arguments, and on every input vector
    on which the children return [v1], [v2] (and [v3]) it returns
    [(v1 - v2) / (v1 + v2)] for I, [v1 - v2] for S, [v1 / v2] for R and
    [(v1 + v2) / v3] for D, in the arithmetic of the band values. *)
Theorem operator_nodes_evaluate (T : Type) `{Numeric T} (fuel : nat)
    (lexer0 : Lexer.t) (ch : ascii) (lexer : Lexer.t) (f : @node T)
    (rest : Lexer.t) :
  Lexer.next lexer0 = Ok (ch, lexer) ->
  parse_T (S fuel) lexer0 = Ok (f, rest) ->
  (ch = "I"%char ->
   exists val_fst val_snd,
     two_arguments (parse_T fuel) lexer val_fst val_snd rest /\
     forall x v1 v2,
       val_fst x = Ok v1 -> val_snd x = Ok v2 ->
       f x = truediv (sub v1 v2) (add v1 v2)) /\
  (ch = "S"%char ->
   exists val_fst val_snd,
     two_arguments (parse_T fuel) lexer val_fst val_snd rest /\
     forall x v1 v2,
       val_fst x = Ok v1 -> val_snd x = Ok v2 ->
       f x = Ok (sub v1 v2)) /\
  (ch = "R"%char ->
   exists val_fst val_snd,
     two_arguments (parse_T fuel) lexer val_fst val_snd rest /\
     forall x v1 v2,
       val_fst x = Ok v1 -> val_snd x = Ok v2 ->
       f x = truediv v1 v2) /\
  (ch = "D"%char ->
   exists val_fst val_snd val_thd,
     three_arguments (parse_T fuel) lexer val_fst val_snd val_thd rest /\
     forall x v1 v2 v3,
       val_fst x = Ok v1 -> val_snd x = Ok v2 -> val_thd x = Ok v3 ->
       f x = truediv (add v1 v2) v3).
Proof.
  intros Hn Hp. cbn [parse_T] in Hp. rewrite Hn in Hp. cbn [Py.bind] in Hp.
  repeat split; intros ->.
  - change (dispatch (parse_T fuel) "I" lexer)
      with (parse_I (parse_T fuel) lexer) in Hp.
    apply parse_I_Ok in Hp as (a & b & Hargs & ->).
    exists a, b. split; [assumption | ].
    intros x v1 v2 H1 H2. unfold _index_fun. now rewrite H1, H2.
  - change (dispatch (parse_T fuel) "S" lexer)
      with (parse_S (parse_T fuel) lexer) in Hp.
    apply parse_S_Ok in Hp as (a & b & Hargs & ->).
    exists a, b. split; [assumption | ].
    intros x v1 v2 H1 H2. unfold _diff_fun. now rewrite H1, H2.
  - change (dispatch (parse_T fuel) "R" lexer)
      with (parse_R (parse_T fuel) lexer) in Hp.
    apply parse_R_Ok in Hp as (a & b & Hargs & ->).
    exists a, b. split; [assumption | ].
    intros x v1 v2 H1 H2. unfold _ratio_fun. now rewrite H1, H2.
  - change (dispatch (parse_T fuel) "D" lexer)
      with (parse_D (parse_T fuel) lexer) in Hp.
    apply parse_D_Ok in Hp as (a & b & c & Hargs & ->).
    exists a, b, c. split; [assumption | ].
    intros x v1 v2 v3 H1 H2 H3. unfold _sum_over_fun. now rewrite H1, H2, H3.
Qed.

Lemma operator_nodes_evaluate_witness :
  Lexer.next (Lexer_of "D(B1,B2,B10)")
  = Ok ("D"%char, Lexer_of "(B1,B2,B10)") /\
  exists val_fst val_snd val_thd : @node float,
    three_arguments (parse_T 1) (Lexer_of "(B1,B2,B10)")
                    val_fst val_snd val_thd [] /\
    forall x v1 v2 v3,
      val_fst x = Ok v1 -> val_snd x = Ok v2 -> val_thd x = Ok v3 ->
      _sum_over_fun (_band1_fun 0) (_band1_fun 1) (_band2_fun "1" "0") x
      = truediv (add v1 v2) v3.
Proof.
  split; [reflexivity | ].
  exact (proj2 (proj2 (proj2
           (@operator_nodes_evaluate float _ 1 (Lexer_of "D(B1,B2,B10)")
              "D"%char (Lexer_of "(B1,B2,B10)")
              (_sum_over_fun (_band1_fun 0) (_band1_fun 1)
                             (_band2_fun "1" "0"))
              [] eq_refl eq_refl))) eq_refl).
Defined.

(** C5: when a formula compiles, the compiled set holds one evaluator
    per term of the formula, in the order of the terms, and invoking it
    on a vector on which the terms have values returns exactly those
    values, one per term and in that order (and returns only then). *)
Theorem invocation_results_in_order (T : Type) `{Numeric T} (expr : string)
    (parsed : list (@node T)) :
  __init__ expr = Ok parsed ->
  expression_terms (parse_T (S (List.length (Lexer_of expr))))
                   (Lexer_of expr) parsed /\
  forall (x : list T) (vals : list T),
    (Forall2 (fun f v => f x = Ok v) parsed vals ->
     __call__ parsed x = Ok vals) /\
    (__call__ parsed x = Ok vals ->
     List.length vals = List.length parsed /\
     Forall2 (fun f v => f x = Ok v) parsed vals /\
     forall i f, nth_error parsed i = Some f ->
                 exists v, nth_error vals i = Some v /\ f x = Ok v).
Proof.
  intros Hi. split.
  - apply __init___parse_E in Hi. unfold parse_E in Hi.
    apply bind_Ok in Hi as ([v l1] & Hv & Hl). cbn beta iota in Hl.
    apply parse_E_loop_terms in Hl as (vs & -> & Hvs).
    exists v, l1, vs. auto.
  - intros x vals. split; [apply __call___Forall2 | ].
    intros Hc. apply __call___Forall2 in Hc.
    split; [symmetry; eapply Forall2_length; eassumption | ].
    split; [assumption | ].
    clear Hi. induction Hc as [ | f v parsed vals Hv Hc IH]; intros i g Hg.
    + destruct i; discriminate Hg.
    + destruct i as [ | i]; simpl in *.
      * injection Hg as <-. eauto.
      * now apply IH.
Qed.

Lemma invocation_results_in_order_witness :
  exists parsed : list (@node float),
    __init__ "B01;I(B10,B02)" = Ok parsed /\
    __call__ parsed [3; 5; 1; 0; 0; 0; 0; 0; 0; 0; 2]%float
    = Ok [5; 1 / 3]%float.
Proof.
  exists [_band2_fun "0" "1";
          _index_fun (_band2_fun "1" "0") (_band2_fun "0" "2")].
  split; [reflexivity | ].
  apply (proj2 (@invocation_results_in_order float _ "B01;I(B10,B02)"
                  _ eq_refl)).
  repeat constructor.
Defined.

(** C6, as stated, fails: the label "00" is outside the declared
    domain and "B00" compiles. *)
Lemma undeclared_label_compiles :
  band_index "00" = None /\
  ~ (exists e, __init__ (T := float) "B00" = Raise e).
Proof.
  split; [reflexivity | ]. intros [e He]. vm_compute in He. discriminate He.
Qed.

(** C6, amended: [parse_B] validates no label.  It raises exactly when
    the input ends before the label's first character or before the
    lookahead ([IndexError]), or when the lookahead is neither a digit
    nor 'a'/'A' and the first character is not a decimal digit
    ([ValueError]); every other label compiles.  "B00" compiles, to an
    evaluator that reads index 0. *)
Theorem band_label_failures (T : Type) `{Numeric T} (lexer : Lexer.t) :
  ((exists e, parse_B (T := T) lexer = Raise e) <->
   band_label_rejected lexer) /\
  (forall e, parse_B (T := T) lexer = Raise e ->
             e = IndexError \/
             exists num, e = ValueError num /\ isdecimal num = false) /\
  (exists band : @node T,
      __init__ "B00" = Ok [band] /\ forall x, band x = getitem x 0%Z).
Proof.
  split; [ | split].
  3: { eexists. split; [reflexivity | intros x; reflexivity]. }
  all: unfold band_label_rejected;
    destruct (skip_whitespace_cases lexer)
      as [Hs | (num & l1 & Hs & Hnum)]; rewrite ?Hs.
  - unfold parse_B, Lexer.next. rewrite Hs. simpl. split; eauto.
  - destruct (skip_whitespace_cases l1) as [Hs1 | (nxt & l2 & Hs1 & Hnxt)];
      rewrite Hs1.
    + rewrite (parse_B_exhausted (T := T) lexer Hs Hs1). split; eauto.
    + destruct (isdigit nxt) eqn:Hd.
      * rewrite (parse_B_two_characters (T := T) lexer Hs Hs1 Hd).
        split; [intros [e [=]] | intros (Hf & _); discriminate Hf].
      * destruct (Ascii.eqb (lower nxt) "a") eqn:Ha.
        -- rewrite (parse_B_suffix_a (T := T) lexer Hs Hs1 Hd Ha).
           split; [intros [e [=]] | intros (_ & Hf & _); discriminate Hf].
        -- rewrite (parse_B_one_character (T := T) lexer Hs Hs1 Hd Ha).
           unfold int, isdecimal.
           destruct (between 48 57 (code num)); simpl.
           ++ split; [intros [e [=]] | intros (_ & _ & Hf); discriminate Hf].
           ++ split; eauto.
  - unfold parse_B, Lexer.next. rewrite Hs. simpl.
    intros e [= <-]. now left.
  - destruct (skip_whitespace_cases l1) as [Hs1 | (nxt & l2 & Hs1 & Hnxt)].
    + rewrite (parse_B_exhausted (T := T) lexer Hs Hs1).
      intros e [= <-]. now left.
    + destruct (isdigit nxt) eqn:Hd.
      * rewrite (parse_B_two_characters (T := T) lexer Hs Hs1 Hd).
        intros e [=].
      * destruct (Ascii.eqb (lower nxt) "a") eqn:Ha.
        -- rewrite (parse_B_suffix_a (T := T) lexer Hs Hs1 Hd Ha).
           intros e [=].
        -- rewrite (parse_B_one_character (T := T) lexer Hs Hs1 Hd Ha).
           unfold int. destruct (between 48 57 (code num)) eqn:Hb; simpl.
           ++ intros e [=].
           ++ intros e [= <-]. right. exists num. auto.
Qed.

(** C7 fails on the code for trailing whitespace.  For a formula that
    compiles, whitespace inserted before any of its characters is
    transparent: the longer string compiles to the very same
    evaluators.  Whitespace appended at its end is not: construction
    raises [IndexError], for example on "B01 " where "B01" compiles. *)
Theorem whitespace_transparent_but_trailing (T : Type) `{Numeric T}
    (expr : string) (parsed : list (@node T)) :
  __init__ expr = Ok parsed ->
  (forall expr' : string,
      ws_insert (Lexer_of expr) (Lexer_of expr') ->
      __init__ expr' = Ok parsed) /\
  (forall ws : string,
      ws <> EmptyString ->
      Forall (fun c => isspace c = true) (Lexer_of ws) ->
      __init__ (T := T) (expr ++ ws) = Raise IndexError) /\
  (exists band : @node T, __init__ "B01" = Ok [band]) /\
  __init__ (T := T) "B01 " = Raise IndexError.
Proof.
  intros Hi. split; [ | split; [ | split]].
  - intros expr' Hw.
    now rewrite (@whitespace_insertion_transparent T _ expr expr' Hw).
  - intros ws. now apply trailing_whitespace_IndexError with (parsed := parsed).
  - eexists. reflexivity.
  - reflexivity.
Qed.

Lemma whitespace_transparent_but_trailing_witness :
  __init__ (T := float) "I(B01,B02)"
  = Ok [_index_fun (_band2_fun "0" "1") (_band2_fun "0" "2")] /\
  __init__ (T := float) " I ( B0 1,  B02 )"
  = Ok [_index_fun (_band2_fun "0" "1") (_band2_fun "0" "2")] /\
  __init__ (T := float) ("I(B01,B02)" ++ " ") = Raise IndexError.
Proof.
  pose proof (@whitespace_transparent_but_trailing float _ "I(B01,B02)"
                _ eq_refl) as (Hbefore & Hafter & _).
  split; [reflexivity | split].
  - apply Hbefore. unfold Lexer_of. simpl.
    repeat first [ apply ws_nil
                 | apply ws_keep
                 | apply ws_space; [reflexivity | ] ].
  - apply Hafter; [discriminate | repeat constructor].
Defined.

(** C8, as stated, fails: "BB8" ends with 'B' and a digit, and it
    compiles (the second 'B' is taken as the first character of a band
    label, and '8' as its second). *)
Lemma band_digit_at_end_may_compile :
  ~ (exists e, __init__ (T := float) "BB8" = Raise e).
Proof.
  intros [e He]. vm_compute in He. discriminate He.
Qed.

(** C8, amended: whenever the parser reaches a band term 'B' [d] whose
    digit [d] is the last character of the input, construction fails
    with [IndexError]: [parse_B] peeks one character beyond the digit,
    and the lexer's [peek] raises on an exhausted stream.  So do the
    formula 'B' [d] itself (for example "B8") and every formula that
    compiles followed by ";B" [d]. *)
Theorem band_digit_at_end_raises (T : Type) `{Numeric T} (d : ascii) :
  isdigit d = true ->
  (forall fuel l l1 l2,
      Lexer.skip_whitespace l = Ok (tt, "B"%char :: l1) ->
      Lexer.skip_whitespace l1 = Ok (tt, d :: l2) ->
      Lexer.skip_whitespace l2 = Raise IndexError ->
      parse_T (T := T) (S fuel) l = Raise IndexError) /\
  __init__ (T := T) (String "B" (String d EmptyString)) = Raise IndexError /\
  (forall expr parsed,
      __init__ (T := T) expr = Ok parsed ->
      __init__ (T := T) (expr ++ String ";" (String "B" (String d EmptyString)))
      = Raise IndexError) /\
  __init__ (T := T) "B8" = Raise IndexError.
Proof.
  intros Hd. apply isdigit_not_space in Hd.
  destruct (skip_whitespace_last d Hd) as [Hs1 Hs2].
  split; [intros; eapply parse_T_band_at_end; eassumption | ].
  split; [ | split; [ | reflexivity]].
  - unfold __init__, parse_E.
    rewrite (@parse_T_band_at_end T _ _ _ [d] [] d); auto.
  - intros expr parsed Hi.
    pose proof (@__init___append T _ expr
                  (String ";" (String "B" (String d EmptyString))) parsed Hi) as Hr.
    change (Lexer_of (String ";" (String "B" (String d EmptyString))))
      with [";"%char; "B"%char; d] in Hr.
    rewrite parse_E_loop_band_at_end in Hr by assumption.
    apply refines_defined in Hr; [exact Hr | discriminate].
Qed.

Lemma band_digit_at_end_raises_witness :
  isdigit "8" = true /\
  __init__ (T := float) "B8" = Raise IndexError /\
  __init__ (T := float) "B01;B8" = Raise IndexError.
Proof.
  split; [reflexivity | ].
  pose proof (@band_digit_at_end_raises float _ "8" eq_refl)
    as (_ & Hone & Hafter & _).
  split; [exact Hone | ].
  exact (Hafter "B01"%string [_band2_fun "0" "1"] eq_refl).
Defined.

(** C9: for every pair of decimal digits [d1], [d2], the band term
    'B' [d1] [d2], when the parser reaches it, compiles to an evaluator
    that returns [x[10*d1 + d2]], whatever the two digits: "B00"
    compiles to an evaluator of index 0 and "B99" to one of index 99. *)
Theorem two_digit_band_compiles (T : Type) `{Numeric T} (fuel : nat)
    (d1 d2 : ascii) (rest : Lexer.t) :
  isdecimal d1 = true ->
  isdecimal d2 = true ->
  (exists band : @node T,
      parse_T (S fuel) ("B"%char :: d1 :: d2 :: rest) = Ok (band, rest) /\
      forall x, band x = getitem x (10 * digit_value d1 + digit_value d2)%Z) /\
  (exists band : @node T,
      __init__ "B00" = Ok [band] /\ forall x, band x = getitem x 0%Z) /\
  (exists band : @node T,
      __init__ "B99" = Ok [band] /\ forall x, band x = getitem x 99%Z).
Proof.
  intros H1 H2.
  destruct (isdecimal_facts d1 H1) as (Hs1 & _ & Hi1 & _).
  destruct (isdecimal_facts d2 H2) as (Hs2 & Hd2 & Hi2 & _).
  split; [ | split; eexists; (split; [reflexivity | intros x; reflexivity])].
  exists (_band2_fun d1 d2). split.
  - cbn [parse_T]. rewrite next_cons by reflexivity. cbn [Py.bind].
    change (dispatch (parse_T fuel) "B") with (@parse_B T).
    apply parse_B_two_characters with (l1 := d2 :: rest);
      auto using skip_whitespace_cons.
  - intros x. unfold _band2_fun. rewrite Hi1, Hi2. reflexivity.
Qed.

Lemma two_digit_band_compiles_witness :
  isdecimal "9" = true /\
  exists band : @node float,
    parse_T 1 ["B"; "9"; "9"; ","]%char = Ok (band, [","%char]) /\
    forall x, band x = getitem x 99%Z.
Proof.
  split; [reflexivity | ].
  exact (proj1 (@two_digit_band_compiles float _ 0 "9" "9" [","%char]
                  eq_refl eq_refl)).
Defined.

(** C10: the band term 'B0', when the next character of the stream is
    neither a digit nor 'a'/'A' (as in "B0;B10"), compiles, and its
    evaluator reads offset -1: the last element of the band-value
    vector. *)
Theorem band_zero_reads_last_element (T : Type) `{Numeric T} (fuel : nat)
    (rest : Lexer.t) (c : ascii) (rest' : Lexer.t) :
  Lexer.skip_whitespace rest = Ok (tt, c :: rest') ->
  isdigit c = false ->
  Ascii.eqb (lower c) "a" = false ->
  (exists band : @node T,
      parse_T (S fuel) ("B"%char :: "0"%char :: rest) = Ok (band, c :: rest') /\
      (forall x, band x = getitem x (-1)%Z) /\
      (forall x d, x <> [] -> band x = Ok (last x d))) /\
  (exists b0 b10 : @node T,
      __init__ "B0;B10" = Ok [b0; b10] /\
      (forall x, b0 x = getitem x (-1)%Z) /\
      (forall x d, x <> [] -> b0 x = Ok (last x d)) /\
      (forall x, b10 x = getitem x 10%Z)).
Proof.
  intros Hs Hc Ha. split.
  - exists (_band1_fun (-1)). split; [ | split].
    + cbn [parse_T]. rewrite next_cons by reflexivity. cbn [Py.bind].
      change (dispatch (parse_T fuel) "B") with (@parse_B T).
      rewrite (parse_B_one_character (T := T) ("0"%char :: rest)
                 (skip_whitespace_cons "0" rest eq_refl) Hs Hc Ha).
      reflexivity.
    + intros x. reflexivity.
    + intros x d Hx. now apply getitem_last.
  - exists (_band1_fun (-1)), (_band2_fun "1" "0").
    split; [reflexivity | ].
    split; [intros x; reflexivity | ].
    split; [intros x d Hx; now apply getitem_last | intros x; reflexivity].
Qed.

Lemma band_zero_reads_last_element_witness :
  Lexer.skip_whitespace (Lexer_of ";B10") = Ok (tt, Lexer_of ";B10") /\
  exists band : @node float,
    parse_T 1 (Lexer_of "B0;B10") = Ok (band, Lexer_of ";B10") /\
    (forall x, band x = getitem x (-1)%Z) /\
    (forall x d, x <> [] -> band x = Ok (last x d)).
Proof.
  split; [reflexivity | ].
  exact (proj1 (@band_zero_reads_last_element float _ 0 (Lexer_of ";B10")
                  ";"%char (Lexer_of "B10") eq_refl eq_refl eq_refl)).
Defined.

(** * Further properties of the lexer, the parser and the evaluators *)

(** ** The lexer as a stream of tokens *)

Lemma skip_whitespace_Ok_iff (l l' : Lexer.t) :
  Lexer.skip_whitespace l = Ok (tt, l') <->
  exists ws c r,
    l = ws ++ l' /\ l' = c :: r /\
    Forall (fun w => isspace w = true) ws /\ isspace c = false.
Proof.
  split.
  - revert l'. induction l as [ | a l IH]; intros l' Hs; simpl in Hs;
      [discriminate | ].
    destruct (isspace a) eqn:Ha.
    + destruct (IH l' Hs) as (ws & c & r & -> & -> & Hws & Hc).
      exists (a :: ws), c, r. repeat split; auto.
    + injection Hs as <-. exists [], a, l. repeat split; auto.
  - intros (ws & c & r & -> & -> & Hws & Hc).
    induction Hws as [ | w ws Hw _ IH]; simpl; [now rewrite Hc | ].
    now rewrite Hw.
Qed.

Lemma skip_whitespace_Raise_iff (l : Lexer.t) (e : exn) :
  Lexer.skip_whitespace l = Raise e <->
  e = IndexError /\ Forall (fun w => isspace w = true) l.
Proof.
  split.
  - induction l as [ | a l IH]; simpl; intros Hs.
    + injection Hs as <-. auto.
    + destruct (isspace a) eqn:Ha; [ | discriminate].
      destruct (IH Hs) as [-> Hl]. auto.
  - intros [-> Hl]. now apply skip_whitespace_all_space.
Qed.

(** X1: [next] returns the first character that is not whitespace and
    leaves exactly the characters after it; it raises, and then
    [IndexError], exactly when the lexer holds whitespace only (or
    nothing). *)
Theorem next_returns_first_token (l : Lexer.t) :
  (forall c r,
      Lexer.next l = Ok (c, r) <->
      exists ws,
        l = ws ++ c :: r /\
        Forall (fun w => isspace w = true) ws /\ isspace c = false) /\
  (forall e,
      Lexer.next l = Raise e <->
      e = IndexError /\ Forall (fun w => isspace w = true) l).
Proof.
  unfold Lexer.next. split.
  - intros c r. split.
    + intros Hn. apply bind_Ok in Hn as ([[] l'] & Hs & Hp).
      apply skip_whitespace_Ok_iff in Hs
        as (ws & c' & r' & -> & -> & Hws & Hc).
      injection Hp as <- <-. eauto.
    + intros (ws & -> & Hws & Hc).
      assert (Hs : Lexer.skip_whitespace (ws ++ c :: r) = Ok (tt, c :: r))
        by (apply skip_whitespace_Ok_iff; exists ws, c, r; auto).
      now rewrite Hs.
  - intros e. rewrite <- skip_whitespace_Raise_iff.
    destruct (skip_whitespace_cases l) as [Hs | (c & r & Hs & _)];
      rewrite Hs; simpl; split; congruence.
Qed.

(** X2: [peek] and [next] agree.  [next] is [peek] followed by
    [popleft]; [peek] leaves the lexer starting with the character it
    returns, so that peeking again changes nothing; and [peek] raises
    exactly when [next] does. *)
Theorem peek_agrees_with_next (l : Lexer.t) :
  Lexer.next l = ('(_, l1) <- Lexer.peek l ;; Lexer.popleft l1) /\
  (forall c l1,
      Lexer.peek l = Ok (c, l1) ->
      Lexer.peek l1 = Ok (c, l1) /\
      exists r, l1 = c :: r /\ Lexer.next l = Ok (c, r)) /\
  (forall e, Lexer.peek l = Raise e <-> Lexer.next l = Raise e).
Proof.
  unfold Lexer.next, Lexer.peek.
  destruct (skip_whitespace_cases l) as [Hs | (c & r & Hs & Hc)];
    rewrite Hs; simpl.
  - split; [reflexivity | split]; [intros c l1 [=] | ].
    intros e. split; congruence.
  - split; [reflexivity | split]; [ | intros e; split; congruence].
    intros c' l1 [= <- <-]. simpl. rewrite Hc. eauto.
Qed.

(** X3: a formula that is empty or holds whitespace only does not
    compile: construction raises [IndexError]. *)
Theorem blank_formula_raises (T : Type) `{Numeric T} (expr : string) :
  Forall (fun w => isspace w = true) (Lexer_of expr) ->
  __init__ (T := T) expr = Raise IndexError.
Proof.
  intros Hws. unfold __init__, parse_E. cbv zeta. cbn [parse_T].
  unfold Lexer.next. now rewrite (skip_whitespace_all_space Hws).
Qed.

Lemma blank_formula_raises_witness :
  __init__ (T := float) EmptyString = Raise IndexError /\
  __init__ (T := float) "  " = Raise IndexError.
Proof.
  split.
  - apply (@blank_formula_raises float _ EmptyString). constructor.
  - apply (@blank_formula_raises float _ "  "). repeat constructor.
Defined.

(** ** Consumption is one way *)

Lemma consumed_trans (l1 l2 l3 : Lexer.t) :
  consumed l1 l2 -> consumed l2 l3 -> consumed l1 l3.
Proof.
  intros (p & Hp & ->) (q & Hq & ->). exists (p ++ q).
  rewrite app_assoc. split; [ | reflexivity].
  destruct p; [congruence | discriminate].
Qed.

Lemma consumed_suffix (l1 l2 l3 q : Lexer.t) :
  consumed l1 l2 -> l2 = q ++ l3 -> consumed l1 l3.
Proof.
  intros (p & Hp & ->) ->. exists (p ++ q).
  rewrite app_assoc. split; [ | reflexivity].
  destruct p; [congruence | discriminate].
Qed.

Lemma next_consumed (l : Lexer.t) (c : ascii) (r : Lexer.t) :
  Lexer.next l = Ok (c, r) -> consumed l r.
Proof.
  unfold Lexer.next. intros Hn.
  apply bind_Ok in Hn as ([[] l'] & Hs & Hp).
  apply skip_whitespace_Ok_iff in Hs as (ws & c' & r' & -> & -> & _ & _).
  injection Hp as <- <-. exists (ws ++ [c']).
  rewrite <- app_assoc. split; [ | reflexivity].
  destruct ws; discriminate.
Qed.

Lemma ensure_follows_consumed (ch : ascii) (l r : Lexer.t) (u : unit) :
  ensure_follows ch l = Ok (u, r) -> consumed l r.
Proof.
  unfold ensure_follows. intros He.
  apply bind_Ok in He as ([c l'] & Hn & He). cbn beta iota in He.
  destruct (negb (Ascii.eqb c ch)); [discriminate | ].
  injection He as _ <-. now apply next_consumed in Hn.
Qed.

Lemma parse_B_consumed (T : Type) (l r : Lexer.t) (f : @node T) :
  parse_B l = Ok (f, r) -> consumed l r.
Proof.
  unfold parse_B, Lexer.peek. intros Hp.
  apply bind_Ok in Hp as ([num l1] & Hn & Hp). cbn beta iota in Hp.
  apply next_consumed in Hn.
  apply bind_Ok in Hp as ([nxt l2] & Hk & Hp). cbn beta iota in Hp.
  apply bind_Ok in Hk as ([[] l3] & Hs & Hk).
  apply skip_whitespace_Ok_iff in Hs as (ws & c & r' & -> & -> & _ & _).
  injection Hk as <- <-.
  destruct (isdigit c); [ | destruct (Ascii.eqb (lower c) "a")].
  - simpl in Hp. injection Hp as _ <-.
    apply (@consumed_suffix l (ws ++ c :: r') r' (ws ++ [c]) Hn).
    now rewrite <- app_assoc.
  - simpl in Hp. injection Hp as _ <-.
    apply (@consumed_suffix l (ws ++ c :: r') r' (ws ++ [c]) Hn).
    now rewrite <- app_assoc.
  - destruct (int num); simpl in Hp; try discriminate.
    injection Hp as _ <-.
    now apply (@consumed_suffix l (ws ++ c :: r') (c :: r') ws Hn).
Qed.

Ltac consumption Hp HpT :=
  repeat match type of Hp with
         | Py.bind (ensure_follows _ _) _ = Ok _ =>
             let l := fresh "l" in
             let He := fresh "He" in
             apply bind_Ok in Hp as ([[] l] & He & Hp);
             cbn beta iota in Hp; apply ensure_follows_consumed in He
         | Py.bind _ _ = Ok _ =>
             let v := fresh "v" in
             let l := fresh "l" in
             let Hv := fresh "Hv" in
             apply bind_Ok in Hp as ([v l] & Hv & Hp);
             cbn beta iota in Hp; apply HpT in Hv
         end;
  injection Hp as _ <-;
  repeat match goal with
         | H1 : consumed ?a ?b, H2 : consumed ?b ?c |- _ =>
             pose proof (consumed_trans H1 H2); clear H2
         end;
  eauto using consumed_trans.

Lemma dispatch_consumed (T : Type) `{Numeric T}
    (pT : Lexer.method (@node T)) (ch : ascii) (l r : Lexer.t)
    (f : @node T) :
  (forall l' f' r', pT l' = Ok (f', r') -> consumed l' r') ->
  dispatch pT ch l = Ok (f, r) ->
  In ch ["I"; "S"; "R"; "D"; "B"]%char /\ consumed l r.
Proof.
  intros HpT Hd. unfold dispatch in Hd.
  destruct (Ascii.eqb_spec ch "I") as [-> | _];
    [split; [simpl; auto | unfold parse_I in Hd; consumption Hd HpT] | ].
  destruct (Ascii.eqb_spec ch "S") as [-> | _];
    [split; [simpl; auto | unfold parse_S in Hd; consumption Hd HpT] | ].
  destruct (Ascii.eqb_spec ch "R") as [-> | _];
    [split; [simpl; auto | unfold parse_R in Hd; consumption Hd HpT] | ].
  destruct (Ascii.eqb_spec ch "D") as [-> | _];
    [split; [simpl; auto | unfold parse_D in Hd; consumption Hd HpT] | ].
  destruct (Ascii.eqb_spec ch "B") as [-> | _]; [ | discriminate].
  split; [simpl; auto 6 | now apply parse_B_consumed in Hd].
Qed.

(** X4: parsing never goes back.  When [parse_T] returns, the term
    started with one of the letters I, S, R, D, B (the first character
    of the lexer that is not whitespace), and the lexer it leaves is
    what follows a non-empty run of consumed characters. *)
Theorem parse_T_consumes_a_prefix (T : Type) `{Numeric T} (fuel : nat)
    (l : Lexer.t) (f : @node T) (r : Lexer.t) :
  parse_T fuel l = Ok (f, r) ->
  (exists ch l0,
      Lexer.next l = Ok (ch, l0) /\ In ch ["I"; "S"; "R"; "D"; "B"]%char) /\
  consumed l r.
Proof.
  revert l f r. induction fuel as [ | fuel IH]; intros l f r Hp;
    [discriminate | ].
  cbn [parse_T] in Hp.
  apply bind_Ok in Hp as ([ch l0] & Hn & Hd). cbn beta iota in Hd.
  apply dispatch_consumed in Hd as [Hch Hr];
    [ | intros l' f' r' Hp'; now apply IH in Hp'].
  split; [eauto | ].
  eapply consumed_trans; [eapply next_consumed; eassumption | assumption].
Qed.

Lemma parse_T_consumes_a_prefix_witness :
  consumed (Lexer_of " S(B01, B8A) ;B02") (Lexer_of " ;B02").
Proof.
  exact (proj2 (@parse_T_consumes_a_prefix float _ 2
                  (Lexer_of " S(B01, B8A) ;B02")
                  (_diff_fun (_band2_fun "0" "1") _band8a_fun)
                  (Lexer_of " ;B02") eq_refl)).
Defined.

(** ** Invocation of the expression set *)

Lemma __call___app (T : Type) (p1 p2 : list (@node T)) (x : list T) :
  __call__ (p1 ++ p2) x
  = (v1 <- __call__ p1 x ;; v2 <- __call__ p2 x ;; Ok (v1 ++ v2)).
Proof.
  induction p1 as [ | f p1 IH]; simpl.
  - now destruct (__call__ p2 x).
  - destruct (f x) as [v | e | ]; simpl; try reflexivity.
    rewrite IH. destruct (__call__ p1 x) as [v1 | e | ]; simpl;
      try reflexivity.
    now destruct (__call__ p2 x).
Qed.

(** X5: invocation evaluates the terms in order and stops at the first
    one that raises: when the terms before [f] have values on [x] and
    [f] raises [e], the call raises [e], whatever the later terms do,
    and no partial result is returned. *)
Theorem invocation_raises_first_failure (T : Type)
    (before : list (@node T)) (f : @node T) (after : list (@node T))
    (x vals : list T) (e : exn) :
  Forall2 (fun g v => g x = Ok v) before vals ->
  f x = Raise e ->
  __call__ (before ++ f :: after) x = Raise e.
Proof.
  intros Hb Hf. rewrite __call___app.
  apply __call___Forall2 in Hb. rewrite Hb. simpl. now rewrite Hf.
Qed.

Lemma invocation_raises_first_failure_witness :
  (p <- __init__ "B01;R(B01,B02);B9;B10" ;; __call__ p [1; 2; 0]%float)
  = Raise ZeroDivisionError.
Proof.
  exact (@invocation_raises_first_failure float
           [_band2_fun "0" "1"]
           (_ratio_fun (_band2_fun "0" "1") (_band2_fun "0" "2"))
           [_band1_fun 8; _band2_fun "1" "0"]
           [1; 2; 0]%float [2%float] ZeroDivisionError
           (Forall2_cons _ _ eq_refl (Forall2_nil _)) eq_refl).
Defined.

(** ** What may follow a formula *)

Lemma ensure_follows_cons (c : ascii) (r : Lexer.t) :
  isspace c = false -> ensure_follows c (c :: r) = Ok (tt, r).
Proof.
  intros Hc. unfold ensure_follows. rewrite (@next_cons c r Hc).
  cbn [Py.bind]. now rewrite Ascii.eqb_refl.
Qed.

(** X6: after a formula that compiles, only ';' and a further term may
    follow.  Any other character [c] that is not whitespace, with
    anything after it, makes construction raise the [SyntaxError] that
    expected ';' and got [c]; a ';' with nothing after it makes
    construction raise [IndexError]. *)
Theorem junk_after_formula_raises (T : Type) `{Numeric T}
    (expr : string) (parsed : list (@node T)) (c : ascii) (tail : string) :
  __init__ expr = Ok parsed ->
  isspace c = false ->
  c <> ";"%char ->
  __init__ (T := T) (expr ++ String c tail) = Raise (SyntaxError ";" c) /\
  __init__ (T := T) (expr ++ ";") = Raise IndexError.
Proof.
  intros Hi Hc Hne. split.
  - pose proof (@__init___append T _ expr (String c tail) parsed Hi) as Hr.
    change (Lexer_of (String c tail)) with (c :: Lexer_of tail) in Hr.
    cbn [parse_E_loop] in Hr. unfold ensure_follows in Hr.
    rewrite (@next_cons c _ Hc) in Hr. cbn [Py.bind] in Hr.
    apply Ascii.eqb_neq in Hne. rewrite Hne in Hr. simpl in Hr.
    apply refines_defined in Hr; [exact Hr | discriminate].
  - pose proof (@__init___append T _ expr ";" parsed Hi) as Hr.
    change (Lexer_of ";") with [";"%char] in Hr.
    cbn [parse_E_loop] in Hr.
    rewrite (@ensure_follows_cons ";" [] eq_refl) in Hr.
    cbn [Py.bind parse_T] in Hr. simpl in Hr.
    apply refines_defined in Hr; [exact Hr | discriminate].
Qed.

Lemma junk_after_formula_raises_witness :
  __init__ (T := float) "I(B01,B02))" = Raise (SyntaxError ";" ")") /\
  __init__ (T := float) "I(B01,B02);" = Raise IndexError.
Proof.
  exact (@junk_after_formula_raises float _ "I(B01,B02)"
           [_index_fun (_band2_fun "0" "1") (_band2_fun "0" "2")]
           ")"%char EmptyString eq_refl eq_refl
           ltac:(discriminate)).
Defined.

(** ** Formulas compose *)

Section Composition.

Context {T : Type} `{Numeric T}.

Lemma parse_E_loop_acc (pT : Lexer.method (@node T)) (n : nat) :
  forall (acc vals : list (@node T)) (l : Lexer.t),
    parse_E_loop pT n (acc ++ vals) l
    = ('(ps, r) <- parse_E_loop pT n vals l ;; Ok (acc ++ ps, r)).
Proof.
  induction n as [ | n IH]; intros acc vals l.
  - destruct l; reflexivity.
  - destruct l as [ | c l]; [reflexivity | ].
    cbn [parse_E_loop].
    destruct (ensure_follows ";" (c :: l)) as [[u l1] | e | ]; simpl;
      try reflexivity.
    destruct (pT l1) as [[v l2] | e | ]; simpl; try reflexivity.
    rewrite <- app_assoc. apply IH.
Qed.

Lemma parse_E_loop_step (pT : Lexer.method (@node T)) (n : nat)
    (vals : list (@node T)) (c : ascii) (l : Lexer.t) :
  parse_E_loop pT (S n) vals (c :: l)
  = ('(_, l1) <- ensure_follows ";" (c :: l) ;;
     '(v, l2) <- pT l1 ;;
     parse_E_loop pT n (vals ++ [v]) l2).
Proof. reflexivity. Qed.

(** Any fuel above the length of the input gives the outcome of
    [parse_T], whatever fuel it was obtained with. *)
Lemma parse_T_any_fuel (n m : nat) (l : Lexer.t) (f : @node T)
    (r : Lexer.t) :
  parse_T n l = Ok (f, r) -> List.length l < m -> parse_T m l = Ok (f, r).
Proof.
  intros Hn Hm. destruct (Nat.le_ge_cases n m) as [Hle | Hge].
  - rewrite <- Hn. apply refines_defined;
      [now apply parse_T_refines | congruence].
  - rewrite <- Hn. symmetry. apply refines_defined;
      [now apply parse_T_refines | ].
    pose proof (@parse_T_consumes T _ m l Hm) as Hc.
    intros Hout. unfold consumes in Hc. now rewrite Hout in Hc.
Qed.

(** What [__init__] returns, split at the first term. *)
Lemma __init___Ok_inv (expr : string) (parsed : list (@node T)) (F : nat) :
  __init__ expr = Ok parsed ->
  List.length (Lexer_of expr) < F ->
  exists v l1,
    parse_T F (Lexer_of expr) = Ok (v, l1) /\
    List.length l1 < List.length (Lexer_of expr) /\
    parse_E_loop (parse_T F) (List.length l1) [v] l1 = Ok (parsed, []).
Proof.
  intros Hi HF. apply __init___parse_E in Hi.
  rewrite <- (@parse_E_enough T _ F) in Hi by assumption.
  unfold parse_E in Hi.
  pose proof (@parse_T_consumes T _ F (Lexer_of expr) HF) as Hc.
  apply bind_Ok in Hi as ([v l1] & Hv & Hl). cbn beta iota in Hl.
  unfold consumes in Hc. rewrite Hv in Hc. simpl in Hc.
  exists v, l1. split; [assumption | split; [assumption | ]].
  etransitivity; [ | exact Hl]. symmetry.
  apply parse_E_loop_enough; try lia.
  intros l' Hl'. apply parse_T_consumes. lia.
Qed.

(** A formula of one term is parsed as that term whatever follows. *)
Lemma __init___single_term (expr : string) (f : @node T) (F : nat)
    (s : Lexer.t) :
  __init__ expr = Ok [f] ->
  List.length (Lexer_of expr) < F ->
  parse_T F (Lexer_of expr ++ s) = Ok (f, s).
Proof.
  intros Hi HF.
  destruct (@__init___Ok_inv expr [f] F Hi HF) as (v & l1 & Hv & _ & Hl).
  apply parse_E_loop_terms in Hl as (vs & Hvs & Hmore).
  destruct vs as [ | v' vs]; [ | destruct vs; discriminate Hvs].
  injection Hvs as <-. inversion Hmore; subst.
  now rewrite (parse_T_frames s F (Lexer_of expr) Hv).
Qed.

Lemma __init___of_parse_T (expr : string) (f : @node T) :
  parse_T (S (List.length (Lexer_of expr))) (Lexer_of expr) = Ok (f, []) ->
  __init__ expr = Ok [f].
Proof.
  intros Hp. unfold __init__, parse_E. cbv zeta. now rewrite Hp.
Qed.

End Composition.

(** X7: formulas compose with ';'.  When [e1] and [e2] compile, so
    does [e1;e2], to the evaluators of [e1] followed by those of [e2];
    and invoking the result returns the results of [e1] followed by the
    results of [e2]. *)
Theorem semicolon_concatenates (T : Type) `{Numeric T} (e1 e2 : string)
    (p1 p2 : list (@node T)) :
  __init__ e1 = Ok p1 ->
  __init__ e2 = Ok p2 ->
  __init__ (e1 ++ ";" ++ e2) = Ok (p1 ++ p2) /\
  forall x,
    __call__ (p1 ++ p2) x
    = (v1 <- __call__ p1 x ;; v2 <- __call__ p2 x ;; Ok (v1 ++ v2)).
Proof.
  intros H1 H2. split; [ | intros x; apply __call___app].
  pose proof (@__init___append T _ e1 (";" ++ e2) p1 H1) as Hr.
  change (Lexer_of (";" ++ e2)) with (";"%char :: Lexer_of e2) in Hr.
  assert (HF : List.length (Lexer_of e2)
               < S (List.length (Lexer_of (e1 ++ ";" ++ e2)))).
  { rewrite Lexer_of_app.
    change (Lexer_of (";" ++ e2)) with (";"%char :: Lexer_of e2).
    rewrite length_app. simpl. lia. }
  revert Hr HF. generalize (S (List.length (Lexer_of (e1 ++ ";" ++ e2)))).
  intros F Hr HF.
  destruct (@__init___Ok_inv T _ e2 p2 F H2 HF) as (v & l1 & Hv & Hl1 & Hl).
  rewrite parse_E_loop_step in Hr.
  rewrite (@ensure_follows_cons ";" (Lexer_of e2) eq_refl) in Hr.
  cbn [Py.bind] in Hr. rewrite Hv in Hr. cbn [Py.bind] in Hr.
  change (List.length (";"%char :: Lexer_of e2))
    with (S (List.length (Lexer_of e2))) in Hr.
  rewrite parse_E_loop_acc in Hr.
  rewrite (@parse_E_loop_enough T (parse_T F) (List.length l1)
             (S (List.length (Lexer_of e2))) [v] l1) in Hr;
    [ | intros l' Hl'; apply parse_T_consumes; lia | lia | lia].
  rewrite Hl in Hr. simpl in Hr.
  apply refines_defined in Hr; [exact Hr | discriminate].
Qed.

Lemma semicolon_concatenates_witness :
  __init__ (T := float) ("I(B8A,B04)" ++ ";" ++ "B01;B02")
  = Ok [_index_fun _band8a_fun (_band2_fun "0" "4");
        _band2_fun "0" "1"; _band2_fun "0" "2"].
Proof.
  exact (proj1 (@semicolon_concatenates float _ "I(B8A,B04)" "B01;B02"
                  [_index_fun _band8a_fun (_band2_fun "0" "4")]
                  [_band2_fun "0" "1"; _band2_fun "0" "2"]
                  eq_refl eq_refl)).
Defined.

Lemma length_app3 (la lb : Lexer.t) (x y z w : ascii) :
  List.length la < List.length (x :: y :: la ++ z :: lb ++ [w]) /\
  List.length lb < List.length (x :: y :: la ++ z :: lb ++ [w]).
Proof. simpl. rewrite length_app. simpl. rewrite length_app. simpl. lia. Qed.

Lemma length_app4 (la lb lc : Lexer.t) (x y z u w : ascii) :
  List.length la < List.length (x :: y :: la ++ z :: lb ++ u :: lc ++ [w]) /\
  List.length lb < List.length (x :: y :: la ++ z :: lb ++ u :: lc ++ [w]) /\
  List.length lc < List.length (x :: y :: la ++ z :: lb ++ u :: lc ++ [w]).
Proof.
  simpl. rewrite length_app. simpl. rewrite length_app. simpl.
  rewrite length_app. simpl. lia.
Qed.

Ltac operator_step :=
  first
    [ rewrite ensure_follows_cons by reflexivity
    | erewrite __init___single_term by eassumption ];
  cbn [Py.bind].

(** X8: formulas nest.  When [a], [b] and [c] compile to one evaluator
    each, the operator formulas over them compile, to the operator's
    closure over those very evaluators: I(a,b), S(a,b), R(a,b) and
    D(a,b,c), at any nesting depth. *)
Theorem operators_compose (T : Type) `{Numeric T} (a b c : string)
    (fa fb fc : @node T) :
  __init__ a = Ok [fa] ->
  __init__ b = Ok [fb] ->
  __init__ c = Ok [fc] ->
  __init__ ("I(" ++ a ++ "," ++ b ++ ")") = Ok [_index_fun fa fb] /\
  __init__ ("S(" ++ a ++ "," ++ b ++ ")") = Ok [_diff_fun fa fb] /\
  __init__ ("R(" ++ a ++ "," ++ b ++ ")") = Ok [_ratio_fun fa fb] /\
  __init__ ("D(" ++ a ++ "," ++ b ++ "," ++ c ++ ")")
  = Ok [_sum_over_fun fa fb fc].
Proof.
  intros Ha Hb Hc.
  repeat split; apply __init___of_parse_T;
    rewrite !Lexer_of_app;
    change (Lexer_of ",") with [","%char];
    change (Lexer_of ")") with [")"%char].
  - change (Lexer_of "I(") with ["I"%char; "("%char].
    cbn [app].
    destruct (length_app3 (Lexer_of a) (Lexer_of b) "I" "(" "," ")")
      as [Hla Hlb].
    revert Hla Hlb.
    generalize (List.length ("I"%char :: "("%char :: Lexer_of a
                               ++ ","%char :: Lexer_of b ++ [")"%char])).
    intros n Hla Hlb. cbn [parse_T].
    rewrite next_cons by reflexivity. cbn [Py.bind].
    change (dispatch (parse_T n) "I") with (parse_I (parse_T (T := T) n)).
    unfold parse_I. repeat operator_step. reflexivity.
  - change (Lexer_of "S(") with ["S"%char; "("%char].
    cbn [app].
    destruct (length_app3 (Lexer_of a) (Lexer_of b) "S" "(" "," ")")
      as [Hla Hlb].
    revert Hla Hlb.
    generalize (List.length ("S"%char :: "("%char :: Lexer_of a
                               ++ ","%char :: Lexer_of b ++ [")"%char])).
    intros n Hla Hlb. cbn [parse_T].
    rewrite next_cons by reflexivity. cbn [Py.bind].
    change (dispatch (parse_T n) "S") with (parse_S (parse_T (T := T) n)).
    unfold parse_S. repeat operator_step. reflexivity.
  - change (Lexer_of "R(") with ["R"%char; "("%char].
    cbn [app].
    destruct (length_app3 (Lexer_of a) (Lexer_of b) "R" "(" "," ")")
      as [Hla Hlb].
    revert Hla Hlb.
    generalize (List.length ("R"%char :: "("%char :: Lexer_of a
                               ++ ","%char :: Lexer_of b ++ [")"%char])).
    intros n Hla Hlb. cbn [parse_T].
    rewrite next_cons by reflexivity. cbn [Py.bind].
    change (dispatch (parse_T n) "R") with (parse_R (parse_T (T := T) n)).
    unfold parse_R. repeat operator_step. reflexivity.
  - change (Lexer_of "D(") with ["D"%char; "("%char].
    cbn [app].
    destruct (length_app4 (Lexer_of a) (Lexer_of b) (Lexer_of c)
                "D" "(" "," "," ")") as (Hla & Hlb & Hlc).
    revert Hla Hlb Hlc.
    generalize (List.length ("D"%char :: "("%char :: Lexer_of a
                               ++ ","%char :: Lexer_of b
                               ++ ","%char :: Lexer_of c ++ [")"%char])).
    intros n Hla Hlb Hlc. cbn [parse_T].
    rewrite next_cons by reflexivity. cbn [Py.bind].
    change (dispatch (parse_T n) "D") with (parse_D (parse_T (T := T) n)).
    unfold parse_D. repeat operator_step. reflexivity.
Qed.

Lemma operators_compose_witness :
  __init__ (T := float) ("D(" ++ "B01" ++ "," ++ "S(B02,B8A)" ++ ","
                              ++ "B10" ++ ")")
  = Ok [_sum_over_fun (_band2_fun "0" "1")
                      (_diff_fun (_band2_fun "0" "2") _band8a_fun)
                      (_band2_fun "1" "0")].
Proof.
  exact (proj2 (proj2 (proj2
           (@operators_compose float _ "B01" "S(B02,B8A)" "B10"
              (_band2_fun "0" "1")
              (_diff_fun (_band2_fun "0" "2") _band8a_fun)
              (_band2_fun "1" "0") eq_refl eq_refl eq_refl)))).
Defined.

(** ** The grammar of the docstring is accepted *)

Lemma digit_char_facts (d : nat) :
  d < 10 ->
  isspace (digit_char d) = false /\ isdigit (digit_char d) = true /\
  int (digit_char d) = Ok (Z.of_nat d).
Proof.
  intros Hd.
  do 10 (destruct d as [ | d]; [repeat split; reflexivity | ]). lia.
Qed.

Lemma band_closure_reads (T : Type) (n : nat) (x : list T) :
  n < 100 ->
  _band2_fun (digit_char (n / 10)) (digit_char (n mod 10)) x
  = getitem x (Z.of_nat n).
Proof.
  intros Hn. unfold _band2_fun.
  assert (Hq : n / 10 < 10) by (apply Nat.Div0.div_lt_upper_bound; lia).
  assert (Hr : n mod 10 < 10) by (apply Nat.mod_upper_bound; lia).
  destruct (digit_char_facts Hq) as (_ & _ & ->).
  destruct (digit_char_facts Hr) as (_ & _ & ->).
  cbn [Py.bind]. f_equal.
  rewrite (Nat.div_mod_eq n 10) at 3. lia.
Qed.

Section Grammar.

Context {T : Type} `{Numeric T}.

Ltac grammar_step IHa :=
  first
    [ rewrite ensure_follows_cons by reflexivity
    | rewrite IHa by (first [ tauto | lia ]) ];
  cbn [Py.bind].

(** A term of the grammar, written out, is parsed to its closure
    whatever follows it, with a recursion depth of its nesting depth. *)
Lemma parse_T_unparse (t : term) :
  in_grammar t ->
  forall (fuel : nat) (s : Lexer.t),
    depth t <= fuel ->
    parse_T fuel (Lexer_of (unparse t) ++ s) = Ok (compile (T := T) t, s).
Proof.
  induction t as [n | a IHa b IHb | a IHa b IHb | a IHa b IHb c IHc
                  | a IHa b IHb];
    intros Hg fuel s Hfuel; cbn [in_grammar depth] in Hg, Hfuel;
    (destruct fuel as [ | fuel]; [lia | ]);
    cbn [unparse compile]; rewrite ?Lexer_of_app;
    change (Lexer_of ",") with [","%char];
    change (Lexer_of ")") with [")"%char].
  - assert (Hq : n / 10 < 10) by (apply Nat.Div0.div_lt_upper_bound; lia).
    assert (Hr : n mod 10 < 10) by (apply Nat.mod_upper_bound; lia).
    destruct (digit_char_facts Hq) as (Hs1 & _ & _).
    destruct (digit_char_facts Hr) as (Hs2 & Hd2 & _).
    cbn [parse_T]. unfold Lexer_of. cbn [list_ascii_of_string app].
    rewrite next_cons by reflexivity. cbn [Py.bind].
    change (dispatch (parse_T fuel) "B") with (@parse_B T).
    apply parse_B_two_characters
      with (l1 := digit_char (n mod 10) :: s);
      auto using skip_whitespace_cons.
  - change (Lexer_of "I(") with ["I"%char; "("%char].
    rewrite <- !app_assoc. cbn [app parse_T].
    rewrite next_cons by reflexivity. cbn [Py.bind].
    change (dispatch (parse_T fuel) "I")
      with (parse_I (parse_T (T := T) fuel)).
    unfold parse_I.
    grammar_step IHa. grammar_step IHa. grammar_step IHa.
    grammar_step IHb. grammar_step IHb. reflexivity.
  - change (Lexer_of "S(") with ["S"%char; "("%char].
    rewrite <- !app_assoc. cbn [app parse_T].
    rewrite next_cons by reflexivity. cbn [Py.bind].
    change (dispatch (parse_T fuel) "S")
      with (parse_S (parse_T (T := T) fuel)).
    unfold parse_S.
    grammar_step IHa. grammar_step IHa. grammar_step IHa.
    grammar_step IHb. grammar_step IHb. reflexivity.
  - change (Lexer_of "D(") with ["D"%char; "("%char].
    rewrite <- !app_assoc. cbn [app parse_T].
    rewrite next_cons by reflexivity. cbn [Py.bind].
    change (dispatch (parse_T fuel) "D")
      with (parse_D (parse_T (T := T) fuel)).
    unfold parse_D.
    grammar_step IHa. grammar_step IHa. grammar_step IHa.
    grammar_step IHb. grammar_step IHb.
    grammar_step IHc. grammar_step IHc. reflexivity.
  - change (Lexer_of "R(") with ["R"%char; "("%char].
    rewrite <- !app_assoc. cbn [app parse_T].
    rewrite next_cons by reflexivity. cbn [Py.bind].
    change (dispatch (parse_T fuel) "R")
      with (parse_R (parse_T (T := T) fuel)).
    unfold parse_R.
    grammar_step IHa. grammar_step IHa. grammar_step IHa.
    grammar_step IHb. grammar_step IHb. reflexivity.
Qed.

End Grammar.

Lemma parse_E_loop_unparse (T : Type) `{Numeric T} (F : nat)
    (ts : list term) :
  Forall in_grammar ts ->
  forall (n : nat) (acc : list (@node T)),
    List.length (Lexer_of (unparse_more ts)) < F ->
    List.length (Lexer_of (unparse_more ts)) <= n ->
    parse_E_loop (parse_T F) n acc (Lexer_of (unparse_more ts))
    = Ok (acc ++ map compile ts, []).
Proof.
  induction 1 as [ | t ts Ht _ IH]; intros n acc HF Hn.
  - cbn [unparse_more map]. rewrite app_nil_r. now destruct n.
  - cbn [unparse_more map] in *. rewrite !Lexer_of_app in *.
    change (Lexer_of ";") with [";"%char] in *.
    cbn [app] in *. cbn [List.length] in HF, Hn.
    rewrite length_app in HF, Hn.
    destruct n as [ | n]; [lia | ].
    rewrite parse_E_loop_step.
    rewrite ensure_follows_cons by reflexivity. cbn [Py.bind].
    rewrite (@parse_T_any_fuel T _ (depth t) F _ (compile t)
               (Lexer_of (unparse_more ts)));
      [ | now apply parse_T_unparse | rewrite length_app; lia].
    cbn [Py.bind]. rewrite IH by lia.
    now rewrite <- app_assoc.
Qed.

Lemma __init___unparse_E (T : Type) `{Numeric T} (t : term)
    (ts : list term) :
  in_grammar t ->
  Forall in_grammar ts ->
  __init__ (unparse_E t ts) = Ok (map (compile (T := T)) (t :: ts)).
Proof.
  intros Ht Hts.
  unfold __init__, parse_E, unparse_E. cbv zeta.
  rewrite Lexer_of_app.
  assert (HF : List.length (Lexer_of (unparse t)
                              ++ Lexer_of (unparse_more ts))
               < S (List.length (Lexer_of (unparse t)
                                   ++ Lexer_of (unparse_more ts)))) by lia.
  revert HF.
  generalize (S (List.length (Lexer_of (unparse t)
                                ++ Lexer_of (unparse_more ts)))).
  intros F HF.
  rewrite (@parse_T_any_fuel T _ (depth t) F _ (compile t)
             (Lexer_of (unparse_more ts)));
    [ | now apply parse_T_unparse | assumption].
  cbn [Py.bind]. rewrite length_app in HF.
  rewrite (parse_E_loop_unparse (T := T) (F := F) Hts) by lia.
  reflexivity.
Qed.

(** X9: the parser accepts the grammar of the module's docstring.
    Every expression E of that grammar (terms nested to any depth over
    the bands B01..B12, separated by ';') compiles, to one evaluator
    per term in order, each the closure of its term; and the closure of
    band Bnn reads the offset nn of the vector (B01 reads x[1], B12
    reads x[12]). *)
Theorem docstring_grammar_compiles (T : Type) `{Numeric T} (t : term)
    (ts : list term) :
  in_grammar t ->
  Forall in_grammar ts ->
  __init__ (unparse_E t ts) = Ok (map (compile (T := T)) (t :: ts)) /\
  forall n (x : list T),
    1 <= n <= 12 -> compile (Band n) x = getitem x (Z.of_nat n).
Proof.
  intros Ht Hts. split; [now apply __init___unparse_E | ].
  intros n x Hn. apply band_closure_reads. lia.
Qed.

Lemma docstring_grammar_compiles_witness :
  __init__ (T := float) "I(S(B01,B02),D(B03,B04,B05));B12"
  = Ok [_index_fun
          (_diff_fun (_band2_fun "0" "1") (_band2_fun "0" "2"))
          (_sum_over_fun (_band2_fun "0" "3") (_band2_fun "0" "4")
                         (_band2_fun "0" "5"));
        _band2_fun "1" "2"].
Proof.
  refine (proj1 (@docstring_grammar_compiles float _
                   (NormDiff (Diff (Band 1) (Band 2))
                             (SumOver (Band 3) (Band 4) (Band 5)))
                   [Band 12] _ _)).
  - simpl. lia.
  - repeat constructor.
Defined.

(** ** What the evaluators of the grammar do on a vector *)

Lemma getitem_in_range {A} (x : list A) (k : nat) :
  k < List.length x -> exists v, getitem x (Z.of_nat k) = Ok v.
Proof.
  intros Hk. unfold getitem.
  replace (Z.of_nat k <? 0)%Z with false by (symmetry; apply Z.ltb_ge; lia).
  replace ((0 <=? Z.of_nat k) && (Z.of_nat k <? Z.of_nat (List.length x)))%Z
    with true by (symmetry; apply andb_true_iff; split;
                  [apply Z.leb_le | apply Z.ltb_lt]; lia).
  rewrite Nat2Z.id.
  destruct (nth_error x k) as [v | ] eqn:Hv; [eauto | ].
  apply nth_error_None in Hv. lia.
Qed.

Lemma getitem_after_first {A} (v v' : A) (xs : list A) (k : nat) :
  1 <= k ->
  getitem (v :: xs) (Z.of_nat k) = getitem (v' :: xs) (Z.of_nat k).
Proof.
  intros Hk. unfold getitem. cbn [List.length].
  replace (Z.of_nat k <? 0)%Z with false by (symmetry; apply Z.ltb_ge; lia).
  rewrite Nat2Z.id. destruct k as [ | k]; [lia | reflexivity].
Qed.

Lemma __call___map_compile (T : Type) `{Numeric T} (ts : list term)
    (x : list T) :
  Forall (fun t => exists v, compile t x = Ok v) ts ->
  exists vals,
    __call__ (map compile ts) x = Ok vals /\
    List.length vals = List.length ts.
Proof.
  induction 1 as [ | t ts [v Hv] _ (vals & Hvals & Hlen)]; cbn [map __call__].
  - exists []. auto.
  - rewrite Hv, Hvals. simpl. exists (v :: vals). simpl. auto.
Qed.

Lemma compile_returns (T : Type) `{Numeric T} (t : term) (x : list T) :
  division_is_total T ->
  in_grammar t ->
  13 <= List.length x ->
  exists v, compile t x = Ok v.
Proof.
  intros Hdiv Ht Hx.
  induction t as [n | a IHa b IHb | a IHa b IHb | a IHa b IHb c IHc
                  | a IHa b IHb];
    cbn [in_grammar compile] in *.
  - rewrite band_closure_reads by lia. apply getitem_in_range. lia.
  - destruct IHa as [va Ha]; [tauto | ].
    destruct IHb as [vb Hb]; [tauto | ].
    unfold _index_fun. rewrite Ha, Hb. simpl. apply Hdiv.
  - destruct IHa as [va Ha]; [tauto | ].
    destruct IHb as [vb Hb]; [tauto | ].
    unfold _diff_fun. rewrite Ha, Hb. simpl. eauto.
  - destruct IHa as [va Ha]; [tauto | ].
    destruct IHb as [vb Hb]; [tauto | ].
    destruct IHc as [vc Hc]; [tauto | ].
    unfold _sum_over_fun. rewrite Ha, Hb, Hc. simpl. apply Hdiv.
  - destruct IHa as [va Ha]; [tauto | ].
    destruct IHb as [vb Hb]; [tauto | ].
    unfold _ratio_fun. rewrite Ha, Hb. simpl. apply Hdiv.
Qed.

(** X10: with an arithmetic whose [/] always returns (numpy's
    [float64]), a formula of the docstring's grammar never raises when
    invoked on a vector of at least 13 band values: it returns one
    result per term. *)
Theorem grammar_formula_returns_on_13_bands (T : Type) `{Numeric T}
    (t : term) (ts : list term) (x : list T) :
  division_is_total T ->
  in_grammar t ->
  Forall in_grammar ts ->
  13 <= List.length x ->
  exists parsed vals,
    __init__ (unparse_E t ts) = Ok parsed /\
    __call__ parsed x = Ok vals /\
    List.length vals = S (List.length ts).
Proof.
  intros Hdiv Ht Hts Hx.
  destruct (@__call___map_compile T _ (t :: ts) x) as (vals & Hc & Hlen).
  { constructor; [now apply compile_returns | ].
    eapply Forall_impl; [ | exact Hts].
    intros t' Ht'. now apply compile_returns. }
  exists (map compile (t :: ts)), vals.
  split; [now apply __init___unparse_E | auto].
Qed.

Lemma grammar_formula_returns_on_13_bands_witness :
  exists parsed vals,
    __init__ (H := float64_Numeric) "R(B01,B02);I(B12,B12)" = Ok parsed /\
    __call__ parsed [0; 1; 0; 0; 0; 0; 0; 0; 0; 0; 0; 0; 0]%float = Ok vals /\
    List.length vals = 2.
Proof.
  refine (@grammar_formula_returns_on_13_bands float float64_Numeric
            (Ratio (Band 1) (Band 2)) [NormDiff (Band 12) (Band 12)]
            [0; 1; 0; 0; 0; 0; 0; 0; 0; 0; 0; 0; 0]%float _ _ _ _).
  - intros a b. eexists. reflexivity.
  - simpl. lia.
  - repeat constructor.
  - simpl. lia.
Defined.

Lemma compile_ignores_first (T : Type) `{Numeric T} (t : term)
    (v v' : T) (xs : list T) :
  in_grammar t -> compile t (v :: xs) = compile t (v' :: xs).
Proof.
  intros Ht.
  induction t as [n | a IHa b IHb | a IHa b IHb | a IHa b IHb c IHc
                  | a IHa b IHb];
    cbn [in_grammar compile] in *.
  - rewrite !band_closure_reads by lia. apply getitem_after_first. lia.
  - unfold _index_fun. rewrite IHa, IHb by tauto. reflexivity.
  - unfold _diff_fun. rewrite IHa, IHb by tauto. reflexivity.
  - unfold _sum_over_fun. rewrite IHa, IHb, IHc by tauto. reflexivity.
  - unfold _ratio_fun. rewrite IHa, IHb by tauto. reflexivity.
Qed.

(** X11: no formula of the docstring's grammar reads the first element
    of the band-value vector: the labels B01..B12 read the offsets
    1..12, so invoking the compiled formula on two vectors that differ
    in their first element only gives the same outcome. *)
Theorem grammar_formula_ignores_first_band (T : Type) `{Numeric T}
    (t : term) (ts : list term) :
  in_grammar t ->
  Forall in_grammar ts ->
  exists parsed,
    __init__ (unparse_E t ts) = Ok parsed /\
    forall (v v' : T) (xs : list T),
      __call__ parsed (v :: xs) = __call__ parsed (v' :: xs).
Proof.
  intros Ht Hts. exists (map compile (t :: ts)).
  split; [now apply __init___unparse_E | ].
  intros v v' xs.
  assert (Hall : Forall in_grammar (t :: ts)) by now constructor.
  clear Ht Hts. induction Hall as [ | t' ts' Ht' _ IH]; [reflexivity | ].
  cbn [map __call__].
  now rewrite (compile_ignores_first t' v v' xs Ht'), IH.
Qed.

Lemma grammar_formula_ignores_first_band_witness :
  exists parsed : list (@node float),
    __init__ "I(B01,B02)" = Ok parsed /\
    forall (v v' : float) (xs : list float),
      __call__ parsed (v :: xs) = __call__ parsed (v' :: xs).
Proof.
  refine (@grammar_formula_ignores_first_band float _
            (NormDiff (Band 1) (Band 2)) [] _ _).
  - simpl. lia.
  - constructor.
Defined.

(** ** Two-character band labels *)

(** X12: [parse_B] never checks the first character of a two-character
    label during construction.  Before 'a' or 'A' the first character
    is ignored altogether: the evaluator reads offset 8.  Before a
    digit the label compiles, and a first character that is not a
    decimal digit shows only at invocation: the evaluator raises
    [ValueError] on every vector. *)
Theorem label_first_character_unchecked (T : Type) `{Numeric T}
    (fuel : nat) (num nxt : ascii) (rest : Lexer.t) :
  isspace num = false ->
  isspace nxt = false ->
  (Ascii.eqb (lower nxt) "a" = true ->
   exists band : @node T,
     parse_T (S fuel) ("B"%char :: num :: nxt :: rest) = Ok (band, rest) /\
     forall x, band x = getitem x 8%Z) /\
  (isdigit nxt = true ->
   isdecimal num = false ->
   exists band : @node T,
     parse_T (S fuel) ("B"%char :: num :: nxt :: rest) = Ok (band, rest) /\
     forall x, band x = Raise (ValueError num)).
Proof.
  intros Hnum Hnxt.
  assert (Hstep : parse_T (T := T) (S fuel) ("B"%char :: num :: nxt :: rest)
                  = parse_B (num :: nxt :: rest)).
  { cbn [parse_T]. now rewrite next_cons by reflexivity. }
  rewrite Hstep. split.
  - intros Ha. exists _band8a_fun. split; [ | reflexivity].
    destruct (isdigit nxt) eqn:Hd.
    + exfalso. revert Hd Ha. clear.
      destruct nxt as [[] [] [] [] [] [] [] []]; vm_compute; congruence.
    + apply (@parse_B_suffix_a T (num :: nxt :: rest) (nxt :: rest) rest
               num nxt); auto using skip_whitespace_cons.
  - intros Hd Hdec. exists (_band2_fun num nxt). split.
    + apply parse_B_two_characters with (l1 := nxt :: rest);
        auto using skip_whitespace_cons.
    + intros x. unfold _band2_fun, int. unfold isdecimal in Hdec.
      now rewrite Hdec.
Qed.

Lemma label_first_character_unchecked_witness :
  (exists band : @node float,
      parse_T 1 (Lexer_of "B1A;B02") = Ok (band, Lexer_of ";B02") /\
      forall x, band x = getitem x 8%Z) /\
  (exists band : @node float,
      parse_T 1 (Lexer_of "Bx1") = Ok (band, []) /\
      forall x, band x = Raise (ValueError "x")).
Proof.
  split.
  - exact (proj1 (@label_first_character_unchecked float _ 0 "1" "A"
                    (Lexer_of ";B02") eq_refl eq_refl) eq_refl).
  - exact (proj2 (@label_first_character_unchecked float _ 0 "x" "1"
                    [] eq_refl eq_refl) eq_refl eq_refl).
Defined.

(** ** The exceptions of an invocation *)

Lemma parse_B_Ok (T : Type) (l r : Lexer.t) (f : @node T) :
  parse_B l = Ok (f, r) ->
  (exists num nxt, isdigit nxt = true /\ f = _band2_fun num nxt) \/
  f = _band8a_fun \/
  (exists nr, (-1 <= nr <= 8)%Z /\ f = _band1_fun nr).
Proof.
  unfold parse_B. intros Hp.
  apply bind_Ok in Hp as ([num l1] & _ & Hp). cbn beta iota in Hp.
  apply bind_Ok in Hp as ([nxt l2] & _ & Hp). cbn beta iota in Hp.
  destruct (isdigit nxt) eqn:Hd; [ | destruct (Ascii.eqb (lower nxt) "a")].
  - apply bind_Ok in Hp as ([c l3] & _ & Hp). injection Hp as <- _.
    left. eauto.
  - apply bind_Ok in Hp as ([c l3] & _ & Hp). injection Hp as <- _.
    right. now left.
  - pose proof (int_sat num) as Hint.
    destruct (int num) as [n | e | ]; simpl in Hp; try discriminate.
    injection Hp as <- _. right. right. exists (n - 1)%Z.
    split; [lia | reflexivity].
Qed.

(** Induction over the evaluators [parse_T] returns: a property of the
    three band closures that the operator closures preserve holds of
    every compiled evaluator. *)
Lemma compiled_node_ind (T : Type) `{Numeric T} (P : @node T -> Prop) :
  (forall num nxt, isdigit nxt = true -> P (_band2_fun num nxt)) ->
  P _band8a_fun ->
  (forall nr, (-1 <= nr <= 8)%Z -> P (_band1_fun nr)) ->
  (forall a b, P a -> P b -> P (_index_fun a b)) ->
  (forall a b, P a -> P b -> P (_diff_fun a b)) ->
  (forall a b, P a -> P b -> P (_ratio_fun a b)) ->
  (forall a b c, P a -> P b -> P c -> P (_sum_over_fun a b c)) ->
  forall fuel l f r, parse_T fuel l = Ok (f, r) -> P f.
Proof.
  intros H2 H8 H1 HI HS HR HD.
  induction fuel as [ | fuel IH]; intros l f r Hp; [discriminate | ].
  cbn [parse_T] in Hp.
  apply bind_Ok in Hp as ([ch l0] & _ & Hd). cbn beta iota in Hd.
  unfold dispatch in Hd.
  destruct (Ascii.eqb ch "I").
  { apply parse_I_Ok in Hd as (a & b & (? & ? & ? & ? & _ & Ha & _ & Hb & _)
                               & ->).
    apply HI; eapply IH; eassumption. }
  destruct (Ascii.eqb ch "S").
  { apply parse_S_Ok in Hd as (a & b & (? & ? & ? & ? & _ & Ha & _ & Hb & _)
                               & ->).
    apply HS; eapply IH; eassumption. }
  destruct (Ascii.eqb ch "R").
  { apply parse_R_Ok in Hd as (a & b & (? & ? & ? & ? & _ & Ha & _ & Hb & _)
                               & ->).
    apply HR; eapply IH; eassumption. }
  destruct (Ascii.eqb ch "D").
  { apply parse_D_Ok in Hd
      as (a & b & c
          & (? & ? & ? & ? & ? & ? & _ & Ha & _ & Hb & _ & Hc & _) & ->).
    apply HD; eapply IH; eassumption. }
  destruct (Ascii.eqb ch "B"); [ | discriminate].
  apply parse_B_Ok in Hd
    as [(num & nxt & Hdig & ->) | [-> | (nr & Hnr & ->)]]; auto.
Qed.

Lemma __init___compiled (T : Type) `{Numeric T} (expr : string)
    (parsed : list (@node T)) :
  __init__ expr = Ok parsed ->
  Forall (fun f => exists fuel l r, parse_T fuel l = Ok (f, r)) parsed.
Proof.
  intros Hi. apply __init___parse_E in Hi. unfold parse_E in Hi.
  apply bind_Ok in Hi as ([v l1] & Hv & Hl). cbn beta iota in Hl.
  apply parse_E_loop_terms in Hl as (vs & -> & Hvs).
  constructor; [eauto | ]. clear Hv.
  induction Hvs as [ | lexer l2 l3 v' vs' He Hv' Hmore IH];
    constructor; [ | exact IH].
  eexists _, _, _. exact Hv'.
Qed.

Lemma getitem_raises_IndexError {A} (x : list A) (k : Z) (e : exn) :
  getitem x k = Raise e -> e = IndexError.
Proof.
  unfold getitem.
  destruct ((0 <=? _) && _)%Z; [ | congruence].
  destruct (nth_error x _); congruence.
Qed.

Lemma getitem_outcome {A} (x : list A) (k : Z) :
  invocation_outcome (getitem x k).
Proof.
  destruct (getitem x k) as [v | e | ] eqn:Hg; simpl; auto.
  - now rewrite (getitem_raises_IndexError _ _ Hg).
  - unfold getitem in Hg.
    destruct ((0 <=? _) && _)%Z; [ | discriminate].
    destruct (nth_error x _); discriminate.
Qed.

Ltac operator_outcome Ha Hb Hdiv x :=
  let v1 := fresh "v1" in
  let v2 := fresh "v2" in
  let e := fresh "e" in
  specialize (Ha x); specialize (Hb x); unfold invocation_outcome in *;
  match goal with |- context [Py.bind (?a x) _] =>
    destruct (a x) as [v1 | e | ]; simpl; auto end;
  match goal with |- context [Py.bind (?b x) _] =>
    destruct (b x) as [v2 | e | ]; simpl; auto end.

(** X13: invoking a compiled expression set never raises a parsing
    exception.  With an arithmetic whose [/] raises nothing but
    [ZeroDivisionError], every invocation returns as many results as
    there are terms or raises [IndexError], [ValueError] or
    [ZeroDivisionError]; never [SyntaxError] or [KeyError]. *)
Theorem invocation_outcomes (T : Type) `{Numeric T} (expr : string)
    (parsed : list (@node T)) (x : list T) :
  division_raises_only_ZeroDivisionError T ->
  __init__ expr = Ok parsed ->
  match __call__ parsed x with
  | Ok vals => List.length vals = List.length parsed
  | Raise e => invocation_error e
  | OutOfFuel => False
  end.
Proof.
  intros Hdiv Hi. apply __init___compiled in Hi.
  assert (Hall : Forall (fun f => forall x, invocation_outcome (f x)) parsed).
  { eapply Forall_impl; [ | exact Hi].
    intros f (fuel & l & r & Hp).
    eapply (@compiled_node_ind T _
              (fun g => forall y, invocation_outcome (g y)));
      [ .. | exact Hp].
    - intros num nxt _ y. unfold _band2_fun.
      pose proof (int_sat num) as Hn. pose proof (int_sat nxt) as Hx.
      destruct (int num) as [a | e | ]; simpl;
        [ | now destruct Hn as [-> _] | auto].
      destruct (int nxt) as [b | e | ]; simpl;
        [ | now destruct Hx as [-> _] | auto].
      apply getitem_outcome.
    - intros y. apply getitem_outcome.
    - intros nr _ y. apply getitem_outcome.
    - intros a b Ha Hb y. unfold _index_fun.
      operator_outcome Ha Hb Hdiv y.
      specialize (Hdiv (sub v1 v2) (add v1 v2)).
      destruct (truediv _ _); simpl; auto. now subst.
    - intros a b Ha Hb y. unfold _diff_fun.
      operator_outcome Ha Hb Hdiv y.
    - intros a b Ha Hb y. unfold _ratio_fun.
      operator_outcome Ha Hb Hdiv y.
      specialize (Hdiv v1 v2).
      destruct (truediv _ _); simpl; auto. now subst.
    - intros a b c Ha Hb Hc y. unfold _sum_over_fun.
      operator_outcome Ha Hb Hdiv y.
      specialize (Hc y). destruct (c y) as [v3 | e | ]; simpl; auto.
      specialize (Hdiv (add v1 v2) v3).
      destruct (truediv _ _); simpl; auto. now subst. }
  clear Hi. induction Hall as [ | f parsed Hf _ IH]; [reflexivity | ].
  cbn [__call__]. specialize (Hf x). unfold invocation_outcome in Hf.
  destruct (f x) as [v | e | ]; simpl; auto.
  destruct (__call__ parsed x) as [vs | e | ]; simpl in *; auto.
Qed.

Lemma invocation_outcomes_witness :
  division_raises_only_ZeroDivisionError float /\
  match
    __call__ [_ratio_fun (_band2_fun "0" "1") (_band2_fun "0" "2");
              _band2_fun "0" "3"] [1; 2; 0]%float
  with
  | Ok vals => List.length vals = 2
  | Raise e => invocation_error e
  | OutOfFuel => False
  end.
Proof.
  assert (Hdiv : division_raises_only_ZeroDivisionError float).
  { intros a b. simpl. now destruct (PrimFloat.eqb b 0). }
  split; [exact Hdiv | ].
  exact (@invocation_outcomes float _ "R(B01,B02);B03"
           [_ratio_fun (_band2_fun "0" "1") (_band2_fun "0" "2");
            _band2_fun "0" "3"]
           [1; 2; 0]%float Hdiv eq_refl).
Defined.

(** ** Whitespace and exceptions *)

(** X14: whitespace inserted before characters of a formula never
    changes the exception of a formula that does not compile:
    construction raises an exception on the longer string exactly when
    it raises the same exception on the formula. *)
Theorem whitespace_keeps_the_exception (T : Type) `{Numeric T}
    (expr expr' : string) (e : exn) :
  ws_insert (Lexer_of expr) (Lexer_of expr') ->
  (__init__ (T := T) expr' = Raise e <-> __init__ (T := T) expr = Raise e).
Proof.
  intros Hw. now rewrite (@whitespace_insertion_transparent T _ expr expr' Hw).
Qed.

Lemma whitespace_keeps_the_exception_witness :
  __init__ (T := float) "I(B01;B02)" = Raise (SyntaxError "," ";") /\
  __init__ (T := float) "I( B01 ;B02)" = Raise (SyntaxError "," ";").
Proof.
  split; [reflexivity | ].
  apply (@whitespace_keeps_the_exception float _ "I(B01;B02)" "I( B01 ;B02)").
  - unfold Lexer_of. simpl.
    repeat first [ apply ws_nil
                 | apply ws_keep
                 | apply ws_space; [reflexivity | ] ].
  - reflexivity.
Defined.

(** ** Operators with the wrong number of arguments *)

Lemma ensure_follows_other (expected c : ascii) (r : Lexer.t) :
  isspace c = false ->
  c <> expected ->
  ensure_follows expected (c :: r) = Raise (SyntaxError expected c).
Proof.
  intros Hc Hne. unfold ensure_follows. rewrite (@next_cons c r Hc).
  cbn [Py.bind]. apply Ascii.eqb_neq in Hne. now rewrite Hne.
Qed.

(** X15: an operator applied to the wrong number of arguments, or left
    unclosed, does not compile.  Over formulas [a], [b], [c] that
    compile to one evaluator each: I(a,b,c) raises the [SyntaxError]
    that expected ')' and got ','; D(a,b) raises the [SyntaxError] that
    expected ',' and got ')'; and I(a,b without its closing parenthesis
    raises [IndexError]. *)
Theorem operator_arity_errors (T : Type) `{Numeric T} (a b c : string)
    (fa fb fc : @node T) :
  __init__ a = Ok [fa] ->
  __init__ b = Ok [fb] ->
  __init__ c = Ok [fc] ->
  __init__ (T := T) ("I(" ++ a ++ "," ++ b ++ "," ++ c ++ ")")
  = Raise (SyntaxError ")" ",") /\
  __init__ (T := T) ("D(" ++ a ++ "," ++ b ++ ")")
  = Raise (SyntaxError "," ")") /\
  __init__ (T := T) ("I(" ++ a ++ "," ++ b) = Raise IndexError.
Proof.
  intros Ha Hb Hc.
  repeat split; unfold __init__, parse_E; cbv zeta;
    rewrite !Lexer_of_app;
    change (Lexer_of ",") with [","%char];
    change (Lexer_of ")") with [")"%char].
  - change (Lexer_of "I(") with ["I"%char; "("%char].
    cbn [app].
    destruct (length_app4 (Lexer_of a) (Lexer_of b) (Lexer_of c)
                "I" "(" "," "," ")") as (Hla & Hlb & _).
    revert Hla Hlb.
    generalize (List.length ("I"%char :: "("%char :: Lexer_of a
                               ++ ","%char :: Lexer_of b
                               ++ ","%char :: Lexer_of c ++ [")"%char])).
    intros n Hla Hlb. cbn [parse_T].
    rewrite next_cons by reflexivity. cbn [Py.bind].
    change (dispatch (parse_T n) "I") with (parse_I (parse_T (T := T) n)).
    unfold parse_I. repeat operator_step.
    rewrite ensure_follows_other by (reflexivity || discriminate).
    reflexivity.
  - change (Lexer_of "D(") with ["D"%char; "("%char].
    cbn [app].
    destruct (length_app3 (Lexer_of a) (Lexer_of b) "D" "(" "," ")")
      as [Hla Hlb].
    revert Hla Hlb.
    generalize (List.length ("D"%char :: "("%char :: Lexer_of a
                               ++ ","%char :: Lexer_of b ++ [")"%char])).
    intros n Hla Hlb. cbn [parse_T].
    rewrite next_cons by reflexivity. cbn [Py.bind].
    change (dispatch (parse_T n) "D") with (parse_D (parse_T (T := T) n)).
    unfold parse_D. repeat operator_step.
    rewrite ensure_follows_other by (reflexivity || discriminate).
    reflexivity.
  - change (Lexer_of "I(") with ["I"%char; "("%char].
    cbn [app].
    rewrite <- (app_nil_r (Lexer_of b)).
    assert (Hla : List.length (Lexer_of a)
                  < List.length ("I"%char :: "("%char :: Lexer_of a
                                   ++ ","%char :: Lexer_of b ++ []))
      by (simpl; rewrite length_app; simpl; lia).
    assert (Hlb : List.length (Lexer_of b)
                  < List.length ("I"%char :: "("%char :: Lexer_of a
                                   ++ ","%char :: Lexer_of b ++ []))
      by (simpl; rewrite length_app; simpl; rewrite length_app; simpl; lia).
    revert Hla Hlb.
    generalize (List.length ("I"%char :: "("%char :: Lexer_of a
                               ++ ","%char :: Lexer_of b ++ [])).
    intros n Hla Hlb. cbn [parse_T].
    rewrite next_cons by reflexivity. cbn [Py.bind].
    change (dispatch (parse_T n) "I") with (parse_I (parse_T (T := T) n)).
    unfold parse_I. repeat operator_step. reflexivity.
Qed.

Lemma operator_arity_errors_witness :
  __init__ (T := float) "I(B01,B02,B03)" = Raise (SyntaxError ")" ",") /\
  __init__ (T := float) "D(B01,B02)" = Raise (SyntaxError "," ")") /\
  __init__ (T := float) "I(B01,B02" = Raise IndexError.
Proof.
  exact (@operator_arity_errors float _ "B01" "B02" "B03"
           (_band2_fun "0" "1") (_band2_fun "0" "2") (_band2_fun "0" "3")
           eq_refl eq_refl eq_refl).
Defined.
